(** * Ziwei Saint persistent storage: a shallow embedding of
      [src/ziwei-saint/src/storage/PersistentStorage.ts]

    The class keeps a JavaScript [Map] from keys to [StoredObject]s, a size
    counter and a list of replica descriptors.  The embedding threads that
    state explicitly.  What a call reads from the runtime (clock readings,
    random draws) is an explicit argument, so that every operation is a
    function and can be evaluated.

    Numbers.  [sizeTracker] is a double holding kilobytes.  Every amount the
    code adds or subtracts is [length / 1024], which is exact in binary
    floating point, so the counter is kept here as an integer number of
    characters (1024ths of a KB).  It is turned into kilobytes, as a
    rational, where the code compares it with a limit.  [maxStorageSize] is
    the double the configuration holds, given as the rational number of
    megabytes it is.  The product [maxStorageSize * 0.9 * 1024] of the
    cleanup target is computed as the code computes it, each multiplication
    rounded to the nearest double ([Double.mul]); [maxStorageSize * 1024] is
    a scaling by a power of two, exact on doubles short of overflow.
    Timestamps are integer milliseconds.

    Control.  Every operation is taken as one step: the [await]s of the
    replication loops only delay the moment the promise resolves, and the
    timers ([startSync], [startBackup]) and the console output touch neither
    the Map nor the counter. *)

From Stdlib Require Import ZArith QArith List String Ascii Bool Lia.
From Stdlib Require Import DecimalString Sorting.Sorted Sorting.Permutation.
Import ListNotations.

Local Open Scope string_scope.
Local Open Scope Z_scope.

(** ** JavaScript values ([value: any]) *)

(** Plain data, as the HTTP layer hands it over ([req.body.value]) plus
    [undefined].  [JNum n] is the Number value of the integer [n], the
    integer itself below 2^53; strings are sequences of code units below
    256. *)
#[local] Unset Elimination Schemes.
Inductive jsval : Type :=
| JUndefined
| JNull
| JBool (b : bool)
| JNum (n : Z)
| JStr (s : string)
| JArr (items : list jsval)
| JObj (fields : list (string * jsval)).
#[local] Set Elimination Schemes.

(** ** Doubles

    The values of JavaScript numbers are rationals; an arithmetic operation
    yields the double nearest to the exact result, ties going to the even
    significand (IEEE 754 binary64, round to nearest even).  Results at or
    beyond 2^1024, which are infinite in JavaScript, are outside this
    function; [isFiniteInteger] tells them apart where the code can meet
    them. *)
Module Double.

(** The integer nearest to [n / d], ties to the even one. *)
Definition roundHalfEven (n : Z) (d : positive) : Z :=
  let q := n / Zpos d in
  let r := n mod Zpos d in
  match 2 * r ?= Zpos d with
  | Lt => q
  | Gt => q + 1
  | Eq => if Z.even q then q else q + 1
  end.

(** [floor (log2 (n / d))] for a positive [n]. *)
Definition floorLog2 (n : Z) (d : positive) : Z :=
  let g := Z.log2 n - Z.log2 (Zpos d) in
  let reaches :=
    if 0 <=? g then Zpos d * 2 ^ g <=? n else Zpos d <=? n * 2 ^ (- g) in
  if reaches then g else g - 1.

(** The double nearest to [n / d] for a positive [n]: a significand of 53
    bits at the exponent of the value, or a multiple of 2^-1074 below the
    normal range. *)
Definition roundPositive (n : Z) (d : positive) : Q :=
  let e := Z.max (floorLog2 n d - 52) (-1074) in
  if 0 <=? e
  then inject_Z (roundHalfEven n (d * Z.to_pos (2 ^ e)) * 2 ^ e)
  else roundHalfEven (n * 2 ^ (- e)) d # Z.to_pos (2 ^ (- e)).

Definition round (q : Q) : Q :=
  match Qnum q with
  | Z0 => 0
  | Zpos _ => roundPositive (Qnum q) (Qden q)
  | Zneg n => - roundPositive (Zpos n) (Qden q)
  end.

(** [a * b] on doubles. *)
Definition mul (a b : Q) : Q := round (a * b).

(** The literal [0.9]. *)
Definition ninetenths : Q := round (9 # 10).

(** The Number value of the integer [n]: the integer the nearest double
    is. *)
Definition ofInteger (n : Z) : Z :=
  let q := round (inject_Z n) in Qnum q / Zpos (Qden q).

(** Whether the Number value of [n] is finite. *)
Definition isFiniteInteger (n : Z) : bool := Z.abs (ofInteger n) <? 2 ^ 1024.

End Double.

Module JSON.

Definition dquote : ascii := ascii_of_N 34.
Definition backslash : ascii := ascii_of_N 92.

Definition hexDigit (n : N) : ascii :=
  if (n <? 10)%N then ascii_of_N (48 + n) else ascii_of_N (87 + n).

(** One code unit inside a JSON string literal. *)
Definition escapeChar (c : ascii) : string :=
  let n := N_of_ascii c in
  if (n =? 34)%N then String backslash (String dquote "")
  else if (n =? 92)%N then String backslash (String backslash "")
  else if (n =? 8)%N then String backslash "b"
  else if (n =? 9)%N then String backslash "t"
  else if (n =? 10)%N then String backslash "n"
  else if (n =? 12)%N then String backslash "f"
  else if (n =? 13)%N then String backslash "r"
  else if (n <? 32)%N then
    String backslash
      ("u00" ++ String (hexDigit (n / 16)) (String (hexDigit (n mod 16)) ""))
  else String c "".

Fixpoint escape (s : string) : string :=
  match s with
  | EmptyString => ""
  | String c rest => escapeChar c ++ escape rest
  end.

Definition quote (s : string) : string :=
  String dquote (escape s ++ String dquote "").

(** The decimal digits of an integer. *)
Definition decimal (n : Z) : string :=
  NilZero.string_of_int (Z.to_int n).

Fixpoint zeros (n : nat) : string :=
  match n with
  | O => ""
  | S n' => String "0" (zeros n')
  end.

(** [Number::toString] chooses integers [n], [k] and [s] with [s] of [k]
    digits such that [s * 10^(n - k)] has the Number value [x], [k] as small
    as possible, then [s * 10^(n - k)] as close to [x] as possible, then [s]
    even.  These are the choices with [k] digits for a positive integer [x]
    of [len] digits: the two multiples of [10^(n - k)] around [x], for [n]
    the length of [x] or one more, as [(distance, s, n)]. *)
Definition choices (x : Z) (len k : Z) : list (Z * Z * Z) :=
  flat_map
    (fun n =>
       let u := 10 ^ (n - k) in
       flat_map
         (fun s =>
            if (10 ^ (k - 1) <=? s) && (s <? 10 ^ k)
               && (Double.ofInteger (s * u) =? x)
            then [(Z.abs (s * u - x), s, n)]
            else [])
         [x / u; x / u + 1])
    [len; len + 1].

Definition better (a b : Z * Z * Z) : Z * Z * Z :=
  let '(da, sa, _) := a in
  let '(db, _, _) := b in
  if da <? db then a
  else if db <? da then b
  else if Z.even sa then a else b.

Fixpoint best (cs : list (Z * Z * Z)) : option (Z * Z * Z) :=
  match cs with
  | [] => None
  | c :: rest =>
      match best rest with
      | Some c' => Some (better c c')
      | None => Some c
      end
  end.

(** The first [k], counting up from [k], that has a choice. *)
Fixpoint shortest (fuel : nat) (x len k : Z) : option (Z * Z * Z) :=
  match fuel with
  | O => None
  | S fuel' =>
      match best (choices x len k) with
      | Some (_, s, n) => Some (s, k, n)
      | None => shortest fuel' x len (k + 1)
      end
  end.

(** The text of a positive integer double [x] of 2^53 or more: the digits
    of [s] and [n - k] zeros up to 21 digits, the exponent form beyond. *)
Definition largeToString (x : Z) : string :=
  let len := Z.of_nat (String.length (decimal x)) in
  match shortest 17 x len 1 with
  | None => decimal x
  | Some (s, k, n) =>
      if n <=? 21 then decimal s ++ zeros (Z.to_nat (n - k))
      else match decimal s with
           | String d EmptyString => String d ("e+" ++ decimal (n - 1))
           | String d rest => String d ("." ++ rest ++ "e+" ++ decimal (n - 1))
           | EmptyString => ""
           end
  end.

(** [Number::toString] for the Number value of an integer: below 2^53 the
    integer is its own Number value and prints with its digits. *)
Definition numberToString (n : Z) : string :=
  if Z.abs n <? 9007199254740992 then decimal n
  else if negb (Double.isFiniteInteger n) then
    (if n <? 0 then "-Infinity" else "Infinity")
  else if n <? 0 then "-" ++ largeToString (Double.ofInteger (- n))
  else largeToString (Double.ofInteger n).

Fixpoint join (parts : list string) : string :=
  match parts with
  | [] => ""
  | [p] => p
  | p :: rest => p ++ "," ++ join rest
  end.

(** [JSON.stringify]; [None] is the result [undefined].  Inside an array
    [undefined] prints as [null]; inside an object the property is left
    out; a number that is not finite prints as [null]. *)
Fixpoint stringify (v : jsval) : option string :=
  match v with
  | JUndefined => None
  | JNull => Some "null"
  | JBool true => Some "true"
  | JBool false => Some "false"
  | JNum n => Some (if Double.isFiniteInteger n then numberToString n else "null")
  | JStr s => Some (quote s)
  | JArr items =>
      Some ("[" ++ join (map (fun x => match stringify x with
                                       | Some s => s
                                       | None => "null"
                                       end) items) ++ "]")
  | JObj fields =>
      Some ("{" ++ join (flat_map (fun kv => match stringify (snd kv) with
                                             | Some s => [quote (fst kv) ++ ":" ++ s]
                                             | None => []
                                             end) fields) ++ "}")
  end.

End JSON.

(** ** Property reads and truthiness, as [decryptData] uses them *)

Definition truthy (v : jsval) : bool :=
  match v with
  | JUndefined | JNull => false
  | JBool b => b
  | JNum n => negb (n =? 0)
  | JStr s => negb (String.eqb s "")
  | JArr _ | JObj _ => true
  end.

(** [typeof v === 'object'] (true of [null] as well). *)
Definition typeofObject (v : jsval) : bool :=
  match v with
  | JNull | JArr _ | JObj _ => true
  | _ => false
  end.

Fixpoint field (name : string) (fields : list (string * jsval)) : jsval :=
  match fields with
  | [] => JUndefined
  | (k, v) :: rest => if String.eqb k name then v else field name rest
  end.

(** [v.name] for a [v] whose [typeof] is ['object']; [None] when the read
    throws (a property of [null]). *)
Definition getProp (name : string) (v : jsval) : option jsval :=
  match v with
  | JNull => None
  | JObj fields => Some (field name fields)
  | _ => Some JUndefined
  end.

(** ** The JavaScript [Map], in insertion order *)

Module JsMap.
Section Ops.
Context {V : Type}.

Fixpoint get (k : string) (m : list (string * V)) : option V :=
  match m with
  | [] => None
  | (k', v) :: rest => if String.eqb k' k then Some v else get k rest
  end.

(** An existing key keeps its place, a new key goes last. *)
Fixpoint set (k : string) (v : V) (m : list (string * V)) : list (string * V) :=
  match m with
  | [] => [(k, v)]
  | (k', v') :: rest =>
      if String.eqb k' k then (k, v) :: rest else (k', v') :: set k v rest
  end.

Definition delete (k : string) (m : list (string * V)) : list (string * V) :=
  filter (fun e => negb (String.eqb (fst e) k)) m.

Definition keys (m : list (string * V)) : list string := map fst m.

(** Keys of a [Map] are unique. *)
Definition wf (m : list (string * V)) : Prop := NoDup (keys m).
End Ops.
End JsMap.

(** ** Data model *)

Module StoredObject.
Record t : Type := mk {
  id : string;
  key : string;
  value : jsval;
  createdAt : Z;
  updatedAt : Z;
  version : Z;
  tags : list string;
  ttl : option Z
}.
End StoredObject.

(** The [options] argument of [set]; an absent property is [None]. *)
Module Options.
Record t : Type := mk {
  tags : option (list string);
  ttl : option Z
}.
End Options.

Inductive NodeStatus : Type := online | offline | syncing.

(** [storageUsed] counts the increments of [0.1] MB. *)
Module ReplicationNode.
Record t : Type := mk {
  id : string;
  address : string;
  port : Z;
  status : NodeStatus;
  lastSync : Z;
  storageUsed : Z
}.
End ReplicationNode.

(** [maxStorageSize] is in MB. *)
Record StorageConfig : Type := {
  enableReplication : bool;
  replicationFactor : Z;
  syncInterval : Z;
  maxStorageSize : Q;
  enableEncryption : bool;
  backupInterval : Z
}.

Definition defaultConfig : StorageConfig :=
  {| enableReplication := true;
     replicationFactor := 3;
     syncInterval := 60000;
     maxStorageSize := 1024;
     enableEncryption := true;
     backupInterval := 300000 |}.

Record Storage : Type := {
  store : list (string * StoredObject.t);
  sizeTracker : Z;
  replicationNodes : list ReplicationNode.t
}.

(** The state the constructor leaves, given the replicas it registered. *)
Definition newStorage (nodes : list ReplicationNode.t) : Storage :=
  {| store := []; sizeTracker := 0; replicationNodes := nodes |}.

(** What one call reads from the clock and the random generator, in program
    order: [Date.now()] in [performCleanup], the id [generateId] builds, the
    hex of [randomBytes(16)], the two [new Date()] of the object literal and
    the [new Date()] taken for the i-th replica. *)
Record Observed : Type := {
  cleanupNow : Z;
  freshId : string;
  ivHex : string;
  createdNow : Z;
  updatedNow : Z;
  replicaNow : nat -> Z
}.

(** The Node runtime the class calls into.  [cipherAvailable]: whether
    [crypto.createCipher] and [crypto.createDecipher] exist (later Node
    releases removed them, and the call then throws inside the [try]).
    [aes192 s]: the hex that [cipher.update(s, 'utf8', 'hex')] followed by
    [cipher.final('hex')] yields under the fixed scrypt key.  [unaes192 h]:
    the text of [decipher.update(h, 'hex', 'utf8')] and
    [decipher.final('utf8')], [None] when that throws.  [parse]: [JSON.parse],
    [None] when it throws.  The iv that [encryptData] draws is stored in the
    envelope but is no input of either function: [createCipher] and
    [createDecipher] take the algorithm and the password only. *)
Record Runtime : Type := {
  cipherAvailable : bool;
  aes192 : string -> string;
  unaes192 : string -> option string;
  parse : string -> option jsval
}.

(** ** The operations of [class PersistentStorage] *)

Module PersistentStorage.
Section Engine.

Variable node : Runtime.
Variable config : StorageConfig.

(** [JSON.stringify(v).length], in characters; [None] when the read of
[length] throws because the result is [undefined]. *)
Definition serializedLength (v : jsval) : option Z :=
match JSON.stringify v with
| Some s => Some (Z.of_nat (String.length s))
| None => None
end.

(** A number of characters in KB, the unit of [sizeTracker]. *)
Definition kilobytes (chars : Z) : Q := (inject_Z chars / 1024)%Q.

(** [x > this.config.maxStorageSize * 1024], for [x] characters. *)
Definition overLimit (x : Z) : bool :=
  negb (Qle_bool (kilobytes x) (maxStorageSize config * 1024)%Q).

(** [x > this.config.maxStorageSize * 0.9 * 1024], for [x] characters;
    the product is taken left to right, on doubles. *)
Definition overTarget (x : Z) : bool :=
  negb (Qle_bool (kilobytes x)
          (Double.mul (Double.mul (maxStorageSize config) Double.ninetenths) 1024)).

(** [obj.ttl && (now - obj.updatedAt.getTime()) > obj.ttl], the test of
both [get] and [performCleanup]; a [ttl] of [0] is falsy. *)
Definition ttlElapsed (now : Z) (obj : StoredObject.t) : bool :=
match StoredObject.ttl obj with
| Some t => negb (t =? 0) && (now - StoredObject.updatedAt obj >? t)
| None => false
end.

Definition encryptData (iv : string) (data : jsval) : jsval :=
if negb (enableEncryption config) then data
else if cipherAvailable node then
match JSON.stringify data with
| Some s => JObj [("encrypted", JStr (aes192 node s)); ("iv", JStr iv)]
| None => data
end
else data.

(** The body of the [try] in [decryptData]; [None] when it throws. *)
Definition tryDecrypt (encryptedData : jsval) : option jsval :=
if typeofObject encryptedData then
match getProp "encrypted" encryptedData, getProp "iv" encryptedData with
| Some e, Some i =>
    if truthy e && truthy i then
      if cipherAvailable node then
        match e with
        | JStr h =>
            match unaes192 node h with
            | Some s => parse node s
            | None => None
            end
        | _ => None
        end
      else None
    else Some encryptedData
| _, _ => None
end
else Some encryptedData.

Definition decryptData (encryptedData : jsval) : jsval :=
if negb (enableEncryption config) then encryptedData
else match tryDecrypt encryptedData with
   | Some v => v
   | None => encryptedData
   end.

Definition withStore (st : Storage) (m : list (string * StoredObject.t)) (size : Z)
: Storage :=
{| store := m; sizeTracker := size; replicationNodes := replicationNodes st |}.

Definition withNodes (st : Storage) (nodes : list ReplicationNode.t) : Storage :=
{| store := store st; sizeTracker := sizeTracker st; replicationNodes := nodes |}.

(** The loop of [replicateSet] from the i-th replica on. *)
Fixpoint touchSet (clock : nat -> Z) (i : nat) (nodes : list ReplicationNode.t)
: list ReplicationNode.t :=
match nodes with
| [] => []
| n :: rest =>
  (match ReplicationNode.status n with
   | online =>
       ReplicationNode.mk (ReplicationNode.id n) (ReplicationNode.address n)
         (ReplicationNode.port n) online (clock i)
         (ReplicationNode.storageUsed n + 1)
   | _ => n
   end) :: touchSet clock (S i) rest
end.

(** The loop of [replicateDelete]. *)
Fixpoint touchDelete (clock : nat -> Z) (i : nat) (nodes : list ReplicationNode.t)
: list ReplicationNode.t :=
match nodes with
| [] => []
| n :: rest =>
  (match ReplicationNode.status n with
   | online =>
       ReplicationNode.mk (ReplicationNode.id n) (ReplicationNode.address n)
         (ReplicationNode.port n) online (clock i)
         (ReplicationNode.storageUsed n)
   | _ => n
   end) :: touchDelete clock (S i) rest
end.

Definition replicateSet (clock : nat -> Z) (st : Storage) : Storage :=
if negb (enableReplication config) then st
else withNodes st (touchSet clock 0 (replicationNodes st)).

Definition replicateDelete (clock : nat -> Z) (st : Storage) : Storage :=
if negb (enableReplication config) then st
else withNodes st (touchDelete clock 0 (replicationNodes st)).

(** [delete]: [None] is the rejected promise (the [length] of an
[undefined] serialization), which leaves the state as it was. *)
Definition delete (clock : nat -> Z) (st : Storage) (key : string)
: Storage * option bool :=
match JsMap.get key (store st) with
| None => (st, Some false)
| Some obj =>
  match serializedLength (StoredObject.value obj) with
  | None => (st, None)
  | Some sizeInKB =>
      let st1 := withStore st (JsMap.delete key (store st))
                   (Z.max 0 (sizeTracker st - sizeInKB)) in
      (if enableReplication config then replicateDelete clock st1 else st1,
       Some true)
  end
end.

(** [get] returns [undefined] for a missing or an expired key.  The call of
[delete] it makes on expiry is not awaited; its effect is taken whole. *)
Definition get (now : Z) (clock : nat -> Z) (st : Storage) (key : string)
: Storage * jsval :=
match JsMap.get key (store st) with
| None => (st, JUndefined)
| Some obj =>
  if ttlElapsed now obj then (fst (delete clock st key), JUndefined)
  else (st, if enableEncryption config
            then decryptData (StoredObject.value obj)
            else StoredObject.value obj)
end.

(** [entries.sort((a, b) => a[1].createdAt - b[1].createdAt)]: the sort is
stable, entries created at the same instant keep their Map order. *)
Fixpoint insertByCreatedAt (e : string * StoredObject.t)
(sorted : list (string * StoredObject.t)) : list (string * StoredObject.t) :=
match sorted with
| [] => [e]
| x :: rest =>
  if StoredObject.createdAt (snd e) <=? StoredObject.createdAt (snd x)
  then e :: sorted
  else x :: insertByCreatedAt e rest
end.

Definition sortByCreatedAt (entries : list (string * StoredObject.t))
: list (string * StoredObject.t) :=
fold_right insertByCreatedAt [] entries.

(** The [while] loop of [performCleanup] over the sorted snapshot.  The
boolean is [false] when the loop threw; the removals made until then
stay. *)
Fixpoint evictOldest (entries : list (string * StoredObject.t)) (st : Storage)
: Storage * bool :=
match entries with
| [] => (st, true)
| (key, obj) :: rest =>
  if overTarget (sizeTracker st) then
    match serializedLength (StoredObject.value obj) with
    | None => (st, false)
    | Some sizeInKB =>
        evictOldest rest
          (withStore st (JsMap.delete key (store st))
             (Z.max 0 (sizeTracker st - sizeInKB)))
    end
  else (st, true)
end.

Definition performCleanup (now : Z) (st : Storage) : Storage * bool :=
let keysToRemove :=
map fst (filter (fun e => ttlElapsed now (snd e)) (store st)) in
let st1 :=
withStore st (fold_left (fun m k => JsMap.delete k m) keysToRemove (store st))
  (sizeTracker st) in
if overLimit (sizeTracker st1)
then evictOldest (sortByCreatedAt (store st1)) st1
else (st1, true).

(** [options?.tags || []] and [options?.ttl]. *)
Definition tagsOf (options : option Options.t) : list string :=
match options with
| Some o => match Options.tags o with Some l => l | None => [] end
| None => []
end.

Definition ttlOf (options : option Options.t) : option Z :=
match options with
| Some o => Options.ttl o
| None => None
end.

(** [existing?.id || this.generateId()]: an empty id is falsy. *)
Definition idFor (existing : option StoredObject.t) (fresh : string) : string :=
match existing with
| Some e => if String.eqb (StoredObject.id e) "" then fresh else StoredObject.id e
| None => fresh
end.

(** The object literal of [set] (lines 126-135), given the entry
[this.store.get(key)] found. *)
Definition newObject (env : Observed) (existing : option StoredObject.t)
(key : string) (value : jsval) (options : option Options.t) : StoredObject.t :=
StoredObject.mk
(idFor existing (freshId env))
key
(if enableEncryption config then encryptData (ivHex env) value else value)
(match existing with
 | Some e => StoredObject.createdAt e
 | None => createdNow env
 end)
(updatedNow env)
(match existing with
 | Some e => StoredObject.version e + 1
 | None => 1
 end)
(tagsOf options)
(ttlOf options).

(** [set]: the result is the boolean the promise resolves to; [false] is
the [catch] branch. *)
Definition set (env : Observed) (st : Storage) (key : string) (value : jsval)
(options : option Options.t) : Storage * bool :=
match serializedLength value with
| None => (st, false)
| Some sizeInKB =>
  let '(st1, completed) :=
    if overLimit (sizeTracker st + sizeInKB)
    then performCleanup (cleanupNow env) st
    else (st, true) in
  if completed then
    let existing := JsMap.get key (store st1) in
    let obj := newObject env existing key value options in
    let st2 := withStore st1 (JsMap.set key obj (store st1))
                 (sizeTracker st1 + sizeInKB) in
    (if enableReplication config then replicateSet (replicaNow env) st2 else st2,
     true)
  else (st1, false)
end.

Definition findByTag (st : Storage) (tag : string) : list jsval :=
map (fun obj => if enableEncryption config
              then decryptData (StoredObject.value obj)
              else StoredObject.value obj)
  (filter (fun obj => existsb (String.eqb tag) (StoredObject.tags obj))
          (map snd (store st))).

(** The sum of the serialized sizes of what the store holds, which
[sizeTracker] is documented to be. *)
Definition storedSize (m : list (string * StoredObject.t)) : Z :=
fold_right (fun e acc =>
            match serializedLength (StoredObject.value (snd e)) with
            | Some n => n + acc
            | None => acc
            end) 0 m.

(** *** Notions the statements below use *)

(** Every stored value has a serialization ([set] stores no [undefined]). *)
Definition valuesDefined (m : list (string * StoredObject.t)) : Prop :=
Forall (fun e => StoredObject.value (snd e) <> JUndefined) m.

(** What every reachable state satisfies: unique keys, serializable
values. *)
Definition storeOk (st : Storage) : Prop :=
JsMap.wf (store st) /\ valuesDefined (store st).

(** The entries the expiry test of [performCleanup] spares. *)
Definition live (now : Z) (m : list (string * StoredObject.t))
: list (string * StoredObject.t) :=
filter (fun e => negb (ttlElapsed now (snd e))) m.

(** The counter after the eviction loop has taken [removed], in order. *)
Fixpoint sizeAfter (removed : list (string * StoredObject.t)) (size : Z) : Z :=
match removed with
| [] => size
| e :: rest =>
  sizeAfter rest
    (Z.max 0 (size - match serializedLength (StoredObject.value (snd e)) with
                     | Some n => n
                     | None => 0
                     end))
end.

(** The state in which [set] looks the key up and builds the object: the
one it was called in, or the one its cleanup left. *)
Definition stateAtInsert (env : Observed) (st : Storage) (value : jsval) : Storage :=
match serializedLength value with
| Some sizeInKB =>
  if overLimit (sizeTracker st + sizeInKB)
  then fst (performCleanup (cleanupNow env) st)
  else st
| None => st
end.


(** [JSON.parse(JSON.stringify(v))] gives [v] back. *)
Definition storable (v : jsval) : Prop :=
exists s, JSON.stringify v = Some s /\ parse node s = Some v.

(** The decipher inverts the cipher, and a ciphertext is never empty (the
block cipher pads). *)
Definition cipherSound : Prop :=
forall t, unaes192 node (aes192 node t) = Some t /\ aes192 node t <> "".

(** The [ttl] given to [set] has not run out at [now] for an object
written at [written]. *)
Definition withinTtl (options : option Options.t) (written now : Z) : Prop :=
forall t, ttlOf options = Some t -> t = 0 \/ now - written <= t.

(** Two calls read the same clock and random values, except for the
clock readings taken while replicating. *)
Definition agreeOutsideReplication (e1 e2 : Observed) : Prop :=
cleanupNow e1 = cleanupNow e2 /\
freshId e1 = freshId e2 /\
ivHex e1 = ivHex e2 /\
createdNow e1 = createdNow e2 /\
updatedNow e1 = updatedNow e2.

(** The part of the state that belongs to the local store. *)
Definition localView (st : Storage) : list (string * StoredObject.t) * Z :=
(store st, sizeTracker st).

End Engine.
End PersistentStorage.

(** ** Concrete runtimes, configurations and clock readings for the examples *)

Module Demo.

(** A stand-in for the cipher pair: the ciphertext is the text behind a
    marker, and only marked text deciphers. *)
Definition cipher (s : string) : string := String "c"%char s.

Definition decipher (h : string) : option string :=
  match h with
  | String "c"%char rest => Some rest
  | _ => None
  end.

(** A [JSON.parse] that knows the literals the examples store. *)
Definition parseLiteral (s : string) : option jsval :=
  if String.eqb s "7" then Some (JNum 7)
  else if String.eqb s "null" then Some JNull
  else None.

Definition runtime : Runtime :=
  {| cipherAvailable := true;
     aes192 := cipher;
     unaes192 := decipher;
     parse := parseLiteral |}.

(** [new PersistentStorage({ enableReplication: false, enableEncryption:
    false })]: the limit stays at 1024 MB. *)
Definition plain : StorageConfig :=
  {| enableReplication := false;
     replicationFactor := 3;
     syncInterval := 60000;
     maxStorageSize := 1024;
     enableEncryption := false;
     backupInterval := 300000 |}.

(** The same with [maxStorageSize: 2 ** -17], a limit of 8 characters; the
    cleanup target is then 7.2 characters. *)
Definition tiny : StorageConfig :=
  {| enableReplication := false;
     replicationFactor := 3;
     syncInterval := 60000;
     maxStorageSize := 1 # 131072;
     enableEncryption := false;
     backupInterval := 300000 |}.


(** A call during which the clock stands at [t], [generateId] yields [i]
    and [randomBytes] yields sixteen zero bytes. *)
Definition at_ (t : Z) (i : string) : Observed :=
  {| cleanupNow := t;
     freshId := i;
     ivHex := "00000000000000000000000000000000";
     createdNow := t;
     updatedNow := t;
     replicaNow := fun _ => t |}.

Definition ttlOnly (t : Z) : option Options.t :=
  Some (Options.mk None (Some t)).

Definition tagged (tag : string) (t : Z) : option Options.t :=
  Some (Options.mk (Some [tag]) (Some t)).

Definition replica (i : string) (s : NodeStatus) : ReplicationNode.t :=
  ReplicationNode.mk i "192.168.1.100" 3000 s 0 0.

(** [new PersistentStorage({ enableReplication: false })]: encryption
    stays enabled. *)
Definition sealed : StorageConfig :=
  {| enableReplication := false;
     replicationFactor := 3;
     syncInterval := 60000;
     maxStorageSize := 1024;
     enableEncryption := true;
     backupInterval := 300000 |}.

(** The envelope around the ciphertext [hex]. *)
Definition envelope (hex : string) : jsval :=
  JObj [("encrypted", JStr hex); ("iv", JStr "00000000000000000000000000000000")].

(** A store whose only entry, written at 100, holds [value] under the key
    [k], with a counter of one character. *)
Definition holding (value : jsval) : Storage :=
  {| store := [("k", StoredObject.mk "id1" "k" value 100 100 1 [] None)];
     sizeTracker := 1;
     replicationNodes := [] |}.

(** The state [set(key, v, options)] leaves when called in [st] at time [t],
    with [i] for the id [generateId] would make. *)
Definition write (config : StorageConfig) (t : Z) (i key : string) (v : jsval)
    (options : option Options.t) (st : Storage) : Storage :=
  fst (PersistentStorage.set runtime config (at_ t i) st key v options).

(** Two writes of three characters each under the limit of 8 characters; the
    first one carries the [ttl] given, if any. *)
Definition twoWrites (first : option Options.t) : Storage :=
  write tiny 200 "id2" "j" (JStr "b") None
    (write tiny 100 "id1" "k" (JStr "a") first (newStorage [])).

(** A third write, which takes the counter to 9 characters. *)
Definition threeWrites (first : option Options.t) : Storage :=
  write tiny 300 "id3" "m" (JStr "c") None (twoWrites first).

End Demo.

(** ** The rest of the class: construction, synchronization, statistics *)

(** What [getStorageStats] returns.  [totalObjects] and [replicationNodes]
    are counts; the sizes are rationals, in the units their names give. *)
Module StorageStats.
Record t : Type := mk {
  totalObjects : nat;
  storageUsedKB : Q;
  storageUsedMB : Q;
  maxStorageMB : Q;
  utilizationPercent : Q;
  replicationEnabled : bool;
  replicationNodes : nat;
  replicationFactor : Z;
  estimatedFreeSpaceMB : Q
}.
End StorageStats.

(** One element of [nodes] in what [getReplicationStats] returns: the
    descriptor without its port. *)
Module ReplicaSummary.
Record t : Type := mk {
  id : string;
  address : string;
  status : NodeStatus;
  lastSync : Z;
  storageUsed : Z
}.
End ReplicaSummary.

Module ReplicationStats.
Record t : Type := mk {
  nodes : list ReplicaSummary.t;
  selfId : string;
  totalReplicas : nat
}.
End ReplicationStats.

Module Maintenance.
Section Service.

Variable node : Runtime.
Variable config : StorageConfig.

Definition digit36 (d : Z) : ascii :=
  if d <? 10 then ascii_of_N (48 + Z.to_N d) else ascii_of_N (87 + Z.to_N d).

Fixpoint toString36From (fuel : nat) (n : Z) (acc : string) : string :=
  match fuel with
  | O => acc
  | S fuel' =>
      let acc' := String (digit36 (n mod 36)) acc in
      if n / 36 =? 0 then acc' else toString36From fuel' (n / 36) acc'
  end.

(** [n.toString(36)] for a non-negative integer, as [Date.now()] is. *)
Definition toString36 (n : Z) : string :=
  toString36From (S (Z.to_nat (Z.log2 n))) n "".

(** The descriptor [initializeReplication] pushes in round [i], [now] being
    the [Date.now()] of that round; [new Date(0)] is the timestamp 0. *)
Definition replicaNode (i : nat) (now : Z) : ReplicationNode.t :=
  ReplicationNode.mk
    ("replica-" ++ JSON.numberToString (Z.of_nat i) ++ "-" ++ toString36 now)%string
    ("192.168.1." ++ JSON.numberToString (100 + Z.of_nat i))%string
    (3000 + Z.of_nat i)
    online
    0
    0.

(** The loop [for (let i = 0; i < replicationFactor - 1; i++)], for an
    integer [replicationFactor]. *)
Definition initializeReplication (clock : nat -> Z) : list ReplicationNode.t :=
  map (fun i => replicaNode i (clock i))
      (seq 0 (Z.to_nat (replicationFactor config - 1))).

(** The constructor with the merged configuration: an empty Map, a counter
    of 0, and the replicas of [initializeReplication] if replication is
    enabled. *)
Definition construct (clock : nat -> Z) : Storage :=
  newStorage (if enableReplication config then initializeReplication clock else []).

(** The loop of [forceSync] from the i-th replica on: the descriptors it
    leaves and the indices of the replicas for which it armed the 100 ms
    timer, in the order it armed them. *)
Fixpoint syncFrom (clock : nat -> Z) (i : nat) (nodes : list ReplicationNode.t)
  : list ReplicationNode.t * list nat :=
  match nodes with
  | [] => ([], [])
  | n :: rest =>
      let '(rest', timers) := syncFrom clock (S i) rest in
      match ReplicationNode.status n with
      | online =>
          (ReplicationNode.mk (ReplicationNode.id n) (ReplicationNode.address n)
             (ReplicationNode.port n) syncing (clock i)
             (ReplicationNode.storageUsed n) :: rest',
           i :: timers)
      | _ => (n :: rest', timers)
      end
  end.

Definition forceSync (clock : nat -> Z) (st : Storage) : Storage * list nat :=
  let '(nodes, timers) := syncFrom clock 0 (replicationNodes st) in
  (PersistentStorage.withNodes st nodes, timers).

Fixpoint setOnline (i : nat) (nodes : list ReplicationNode.t) : list ReplicationNode.t :=
  match nodes, i with
  | [], _ => []
  | n :: rest, O =>
      ReplicationNode.mk (ReplicationNode.id n) (ReplicationNode.address n)
        (ReplicationNode.port n) online (ReplicationNode.lastSync n)
        (ReplicationNode.storageUsed n) :: rest
  | n :: rest, S i' => n :: setOnline i' rest
  end.

(** The callback of the timer armed for the i-th replica: [if
    (this.replicationNodes.some(n => n.id === node.id)) node.status =
    'online']. *)
Definition syncTimer (i : nat) (st : Storage) : Storage :=
  match nth_error (replicationNodes st) i with
  | None => st
  | Some n =>
      if existsb (fun m => String.eqb (ReplicationNode.id m) (ReplicationNode.id n))
           (replicationNodes st)
      then PersistentStorage.withNodes st (setOnline i (replicationNodes st))
      else st
  end.

(** [shutdown], as far as the state goes: the final [forceSync] if
    replication is enabled.  The two interval timers it clears are no part
    of the state. *)
Definition shutdown (clock : nat -> Z) (st : Storage) : Storage * list nat :=
  if enableReplication config then forceSync clock st else (st, []).

Definition getStorageStats (st : Storage) : StorageStats.t :=
  let usedKB := PersistentStorage.kilobytes (sizeTracker st) in
  StorageStats.mk
    (List.length (store st))
    usedKB
    (usedKB / 1024)%Q
    (maxStorageSize config)
    (usedKB / 1024 / maxStorageSize config * 100)%Q
    (enableReplication config)
    (List.length (replicationNodes st) + 1)
    (replicationFactor config)
    (maxStorageSize config - usedKB / 1024)%Q.

Definition getReplicationStats (st : Storage) : ReplicationStats.t :=
  ReplicationStats.mk
    (map (fun n => ReplicaSummary.mk (ReplicationNode.id n) (ReplicationNode.address n)
                     (ReplicationNode.status n) (ReplicationNode.lastSync n)
                     (ReplicationNode.storageUsed n))
         (replicationNodes st))
    "ziwei-self-storage"
    (List.length (replicationNodes st) + 1).

(** *** Notions the statements below use *)

(** What a data operation must leave alone in a replica descriptor. *)
Definition identity (n : ReplicationNode.t) : string * string * Z * NodeStatus :=
  (ReplicationNode.id n, ReplicationNode.address n, ReplicationNode.port n,
   ReplicationNode.status n).

(** The serialized size of the value of one entry, the summand of
    [storedSize]. *)
Definition sizeOfEntry (e : string * StoredObject.t) : Z :=
  match PersistentStorage.serializedLength (StoredObject.value (snd e)) with
  | Some n => n
  | None => 0
  end.

(** A descriptor with its status set to ['online']. *)
Definition brought_online (n : ReplicationNode.t) : ReplicationNode.t :=
  ReplicationNode.mk (ReplicationNode.id n) (ReplicationNode.address n)
    (ReplicationNode.port n) online (ReplicationNode.lastSync n)
    (ReplicationNode.storageUsed n).

(** The state after the timers [timers] have fired, first to last. *)
Definition fireTimers (timers : list nat) (st : Storage) : Storage :=
  fold_left (fun acc i => syncTimer i acc) timers st.

End Service.
End Maintenance.

(** * Properties *)

Local Open Scope list_scope.

(** ** The Map *)

Module JsMapFacts.
Section Facts.
Context {V : Type}.
Implicit Types (m : list (string * V)) (k : string).

Lemma get_set_same m k v : JsMap.get k (JsMap.set k v m) = Some v.
Proof.
  induction m as [|[k' v'] m IH]; simpl.
  - now rewrite String.eqb_refl.
  - destruct (String.eqb k' k) eqn:E; simpl.
    + now rewrite String.eqb_refl.
    + now rewrite E.
Qed.

Lemma get_set_other m k k' v :
  k <> k' -> JsMap.get k' (JsMap.set k v m) = JsMap.get k' m.
Proof.
  intros Hne. induction m as [|[k0 v0] m IH]; simpl.
  - destruct (String.eqb k k') eqn:E; [apply String.eqb_eq in E; contradiction|easy].
  - destruct (String.eqb k0 k) eqn:E; simpl.
    + apply String.eqb_eq in E; subst k0.
      destruct (String.eqb k k') eqn:E'; [apply String.eqb_eq in E'; contradiction|easy].
    + now rewrite IH.
Qed.

Lemma in_delete m k e :
  In e (JsMap.delete k m) <-> In e m /\ fst e <> k.
Proof.
  unfold JsMap.delete. rewrite filter_In, negb_true_iff.
  split; intros [H1 H2]; split; auto.
  - now apply String.eqb_neq.
  - now apply String.eqb_neq.
Qed.

Lemma get_delete_same m k : JsMap.get k (JsMap.delete k m) = None.
Proof.
  induction m as [|[k' v'] m IH]; simpl; [easy|].
  destruct (String.eqb k' k) eqn:E; simpl; [easy|]. now rewrite E.
Qed.

Lemma get_delete_other m k k' :
  k <> k' -> JsMap.get k' (JsMap.delete k m) = JsMap.get k' m.
Proof.
  intros Hne. induction m as [|[k0 v0] m IH]; simpl; [easy|].
  destruct (String.eqb k0 k) eqn:E; simpl.
  - apply String.eqb_eq in E; subst k0.
    destruct (String.eqb k k') eqn:E'; [apply String.eqb_eq in E'; contradiction|easy].
  - now rewrite IH.
Qed.

Lemma get_in m k v : JsMap.get k m = Some v -> In (k, v) m.
Proof.
  induction m as [|[k' v'] m IH]; simpl; [discriminate|].
  destruct (String.eqb k' k) eqn:E.
  - apply String.eqb_eq in E. intros [= ->]. left. now subst.
  - intros H. right. auto.
Qed.

Lemma in_get m k v : JsMap.wf m -> In (k, v) m -> JsMap.get k m = Some v.
Proof.
  unfold JsMap.wf, JsMap.keys.
  induction m as [|[k' v'] m IH]; simpl; [easy|].
  intros Hnd [H|H]; inversion Hnd as [|? ? Hnot Hnd']; subst.
  - injection H as -> ->. now rewrite String.eqb_refl.
  - destruct (String.eqb k' k) eqn:E; [|auto].
    apply String.eqb_eq in E; subst k'.
    exfalso. apply Hnot. change k with (fst (k, v)). now apply in_map.
Qed.

(** The loop [for (const key of keysToRemove) this.store.delete(key)]. *)
Lemma delete_all m (ks : list string) :
  fold_left (fun acc k => JsMap.delete k acc) ks m
  = filter (fun e => negb (existsb (String.eqb (fst e)) ks)) m.
Proof.
  revert m. induction ks as [|k ks IH]; intros m; simpl.
  - induction m as [|e m IHm]; simpl; [easy|]. now rewrite <- IHm.
  - rewrite IH. unfold JsMap.delete.
    induction m as [|e m IHm]; simpl; [easy|].
    destruct (String.eqb (fst e) k) eqn:E; simpl; [easy|].
    destruct (existsb (String.eqb (fst e)) ks); simpl; [easy|].
    now rewrite IHm.
Qed.

Lemma delete_sublist_wf m k : JsMap.wf m -> JsMap.wf (JsMap.delete k m).
Proof.
  unfold JsMap.wf, JsMap.keys, JsMap.delete.
  induction m as [|e m IH]; simpl; [easy|].
  intros Hnd. inversion Hnd as [|? ? Hnot Hnd']; subst.
  destruct (String.eqb (fst e) k); simpl; [auto|].
  constructor; [|auto].
  intros Hin. apply Hnot. apply in_map_iff in Hin as [x [Hx Hin]].
  apply filter_In in Hin as [Hin _]. rewrite <- Hx. now apply in_map.
Qed.

Lemma set_keys_in m k v k' :
  In k' (JsMap.keys (JsMap.set k v m)) <-> k' = k \/ In k' (JsMap.keys m).
Proof.
  unfold JsMap.keys.
  induction m as [|[k0 v0] m IH]; simpl.
  - intuition.
  - destruct (String.eqb k0 k) eqn:E; simpl.
    + apply String.eqb_eq in E; subst k0. intuition.
    + rewrite IH. intuition.
Qed.

Lemma set_wf m k v : JsMap.wf m -> JsMap.wf (JsMap.set k v m).
Proof.
  unfold JsMap.wf.
  induction m as [|[k0 v0] m IH]; simpl.
  - intros _. constructor; [easy|constructor].
  - intros Hnd. inversion Hnd as [|? ? Hnot Hnd']; subst.
    destruct (String.eqb k0 k) eqn:E; simpl.
    + apply String.eqb_eq in E; subst k0. now constructor.
    + constructor; [|auto].
      fold (JsMap.keys (JsMap.set k v m)). rewrite set_keys_in.
      intros [->|H]; [now rewrite String.eqb_refl in E|contradiction].
Qed.

End Facts.
End JsMapFacts.

Import PersistentStorage.

(** ** Serialization *)

Lemma stringify_undefined (v : jsval) :
  JSON.stringify v = None <-> v = JUndefined.
Proof.
  destruct v as [| |[|]| | | |]; simpl; split; intros H; try discriminate; easy.
Qed.

Lemma serializedLength_undefined (v : jsval) :
  serializedLength v = None <-> v = JUndefined.
Proof.
  unfold serializedLength. rewrite <- stringify_undefined.
  destruct (JSON.stringify v); split; intros H; try discriminate; easy.
Qed.

Lemma serializedLength_nonneg (v : jsval) (n : Z) :
  serializedLength v = Some n -> 0 <= n.
Proof.
  unfold serializedLength. destruct (JSON.stringify v); intros [= <-]; lia.
Qed.

Lemma serializedLength_defined (v : jsval) :
  v <> JUndefined -> exists n, serializedLength v = Some n /\ 0 <= n.
Proof.
  intros Hv. destruct (serializedLength v) as [n|] eqn:E.
  - exists n. split; [easy|]. eapply serializedLength_nonneg; eauto.
  - apply serializedLength_undefined in E. contradiction.
Qed.

(** ** Sorting by [createdAt] *)

Lemma insertByCreatedAt_perm e l : Permutation (insertByCreatedAt e l) (e :: l).
Proof.
  induction l as [|x l IH]; simpl; [easy|].
  destruct (_ <=? _); [easy|].
  rewrite IH. apply perm_swap.
Qed.

Lemma sortByCreatedAt_perm l : Permutation (sortByCreatedAt l) l.
Proof.
  induction l as [|e l IH]; simpl; [easy|].
  rewrite insertByCreatedAt_perm. now constructor.
Qed.




(** ** The cleanup *)

Section CleanupFacts.

Variable config : StorageConfig.

Lemma wf_same_key (m : list (string * StoredObject.t)) e e' :
  JsMap.wf m -> In e m -> In e' m -> fst e = fst e' -> e = e'.
Proof.
  intros Hwf He He' Hk. destruct e as [k v], e' as [k' v']; simpl in Hk; subst k'.
  pose proof (JsMapFacts.in_get _ _ _ Hwf He) as H1.
  pose proof (JsMapFacts.in_get _ _ _ Hwf He') as H2.
  congruence.
Qed.

(** On a Map, deleting the keys of the expired entries leaves exactly the
    entries that are not expired, in their order. *)
Lemma expired_removed now (m : list (string * StoredObject.t)) :
  JsMap.wf m ->
  fold_left (fun acc k => JsMap.delete k acc)
    (map fst (filter (fun e => ttlElapsed now (snd e)) m)) m
  = live now m.
Proof.
  intros Hwf. rewrite JsMapFacts.delete_all. unfold live.
  apply filter_ext_in. intros e He. f_equal.
  destruct (ttlElapsed now (snd e)) eqn:E.
  - apply existsb_exists. exists (fst e). split; [|apply String.eqb_refl].
    apply in_map. apply filter_In. now split.
  - destruct (existsb _ _) eqn:Ex; [|easy].
    apply existsb_exists in Ex as [k [Hk Heq]].
    apply String.eqb_eq in Heq.
    apply in_map_iff in Hk as [e' [Hfst He']].
    apply filter_In in He' as [He' Hexp].
    assert (e = e') by (eapply wf_same_key; eauto; congruence).
    subst e'. congruence.
Qed.

Lemma expired_removed_incl now (m : list (string * StoredObject.t)) e :
  In e (fold_left (fun acc k => JsMap.delete k acc)
          (map fst (filter (fun e => ttlElapsed now (snd e)) m)) m) ->
  In e m.
Proof.
  rewrite JsMapFacts.delete_all, filter_In. tauto.
Qed.

(** The eviction loop: it takes a prefix of the snapshot, it takes an entry
    only while the counter is above the target, and it stops at the first
    entry that finds the counter at or below it. *)
Lemma evictOldest_spec entries :
  valuesDefined entries ->
  forall st,
  exists removed kept,
    entries = removed ++ kept /\
    evictOldest config entries st
    = (withStore st
         (fold_left (fun acc k => JsMap.delete k acc) (map fst removed) (store st))
         (sizeAfter removed (sizeTracker st)),
       true) /\
    (kept = [] \/ overTarget config (sizeAfter removed (sizeTracker st)) = false) /\
    (forall p q, removed = p ++ q -> q <> [] ->
                 overTarget config (sizeAfter p (sizeTracker st)) = true).
Proof.
  induction entries as [|[k obj] rest IH]; intros Hdef st.
  - exists [], []. simpl. repeat split.
    + now destruct st.
    + now left.
    + intros p q Hpq Hq. destruct p; destruct q; simpl in *; congruence.
  - inversion Hdef as [|? ? Hobj Hrest]; subst. simpl in Hobj.
    simpl. destruct (overTarget config (sizeTracker st)) eqn:Hover.
    + destruct (serializedLength_defined _ Hobj) as [n [Hn _]]. rewrite Hn.
      destruct (IH Hrest (withStore st (JsMap.delete k (store st))
                            (Z.max 0 (sizeTracker st - n))))
        as [removed [kept [Hsplit [Hrun [Hstop Hwhile]]]]].
      exists ((k, obj) :: removed), kept. simpl. rewrite Hn.
      split; [now rewrite Hsplit|]. split; [exact Hrun|]. split; [exact Hstop|].
      intros p q Hpq Hq. destruct p as [|e p]; simpl in *.
      * exact Hover.
      * injection Hpq as <- Hpq. simpl. rewrite Hn. now apply (Hwhile p q).
    + exists [], ((k, obj) :: rest). simpl. repeat split.
      * now destruct st.
      * now right.
      * intros p q Hpq Hq. destruct p; destruct q; simpl in *; congruence.
Qed.

Lemma valuesDefined_incl (m m' : list (string * StoredObject.t)) :
  (forall e, In e m' -> In e m) -> valuesDefined m -> valuesDefined m'.
Proof.
  unfold valuesDefined. rewrite !Forall_forall. auto.
Qed.

Lemma evictOldest_store_incl entries st e :
  In e (store (fst (evictOldest config entries st))) -> In e (store st).
Proof.
  revert st. induction entries as [|[k obj] rest IH]; intros st; simpl; [easy|].
  destruct (overTarget config (sizeTracker st)); [|easy].
  destruct (serializedLength _); [|easy].
  intros H. apply IH in H. simpl in H. now apply JsMapFacts.in_delete in H.
Qed.

Lemma performCleanup_store_incl now st e :
  In e (store (fst (performCleanup config now st))) -> In e (store st).
Proof.
  unfold performCleanup. simpl.
  destruct (overLimit config (sizeTracker st)).
  - intros H. apply evictOldest_store_incl in H. simpl in H.
    now apply expired_removed_incl in H.
  - simpl. apply expired_removed_incl.
Qed.

(** On a store of serializable values the cleanup runs to its end. *)
Lemma performCleanup_completes now st :
  valuesDefined (store st) -> snd (performCleanup config now st) = true.
Proof.
  intros Hdef. unfold performCleanup. simpl.
  destruct (overLimit config (sizeTracker st)); [|easy].
  match goal with |- snd (evictOldest _ ?es ?s) = _ =>
    destruct (evictOldest_spec es) with (st := s) as [r [kp [_ [Hrun _]]]]
  end.
  - eapply valuesDefined_incl; [|exact Hdef].
    intros e He. eapply Permutation_in in He; [|apply sortByCreatedAt_perm].
    now apply expired_removed_incl in He.
  - now rewrite Hrun.
Qed.

Lemma evictOldest_nodes entries st :
  replicationNodes (fst (evictOldest config entries st)) = replicationNodes st.
Proof.
  revert st. induction entries as [|[k obj] rest IH]; intros st; simpl; [easy|].
  destruct (overTarget config (sizeTracker st)); [|easy].
  destruct (serializedLength _); [|easy].
  now rewrite IH.
Qed.

Lemma performCleanup_nodes now st :
  replicationNodes (fst (performCleanup config now st)) = replicationNodes st.
Proof.
  unfold performCleanup. simpl.
  destruct (overLimit config (sizeTracker st)); [|reflexivity].
  now rewrite evictOldest_nodes.
Qed.

End CleanupFacts.

(** ** [set], [get] and the codec *)

Section StoreFacts.

Variable node : Runtime.
Variable config : StorageConfig.

Lemma replicateSet_local clock st :
  localView (replicateSet config clock st) = localView st.
Proof. unfold replicateSet. now destruct (negb _). Qed.

Lemma replicateDelete_local clock st :
  localView (replicateDelete config clock st) = localView st.
Proof. unfold replicateDelete. now destruct (negb _). Qed.

(** [set] on a value with a serialization, in a store of serializable
    values: it reaches the insertion and resolves to [true]. *)
Lemma set_runs env st key v options n :
  serializedLength v = Some n ->
  valuesDefined (store st) ->
  let st1 := stateAtInsert config env st v in
  let obj := newObject node config env (JsMap.get key (store st1)) key v options in
  snd (set node config env st key v options) = true /\
  localView (fst (set node config env st key v options))
  = (JsMap.set key obj (store st1), sizeTracker st1 + n).
Proof.
  intros Hn Hdef. unfold set, stateAtInsert. rewrite Hn.
  destruct (overLimit config (sizeTracker st + n)).
  - pose proof (performCleanup_completes config (cleanupNow env) st Hdef) as Hc.
    destruct (performCleanup config (cleanupNow env) st) as [st1 c]. simpl in Hc.
    subst c. simpl. split; [easy|].
    destruct (enableReplication config); [|easy].
    now rewrite replicateSet_local.
  - simpl. split; [easy|].
    destruct (enableReplication config); [|easy].
    now rewrite replicateSet_local.
Qed.

Lemma set_rejects_undefined env st key options :
  set node config env st key JUndefined options = (st, false).
Proof. reflexivity. Qed.

(** Decrypting what [encryptData] produced gives the value back; when the
    runtime has no cipher both directions pass the value through. *)
Lemma decrypt_encrypt iv v :
  storable node v -> cipherSound node -> iv <> "" ->
  decryptData node config (encryptData node config iv v) = v.
Proof.
  intros [s [Hs Hp]] Hc Hiv. unfold decryptData, encryptData.
  destruct (enableEncryption config); simpl; [|easy].
  destruct (cipherAvailable node) eqn:Hav.
  - rewrite Hs. unfold tryDecrypt. simpl. rewrite Hav.
    destruct (Hc s) as [Hinv Hne].
    apply String.eqb_neq in Hne, Hiv. rewrite Hne, Hiv. simpl.
    now rewrite Hinv, Hp.
  - unfold tryDecrypt. rewrite Hav.
    destruct (typeofObject v); [|easy].
    destruct (getProp "encrypted" v); [|easy].
    destruct (getProp "iv" v); [|easy].
    now destruct (truthy j && truthy j0).
Qed.

Lemma get_present now clock st key obj :
  JsMap.get key (store st) = Some obj ->
  ttlElapsed now obj = false ->
  get node config now clock st key
  = (st, if enableEncryption config
         then decryptData node config (StoredObject.value obj)
         else StoredObject.value obj).
Proof. intros Hget Httl. unfold get. now rewrite Hget, Httl. Qed.

Lemma get_absent now clock st key :
  JsMap.get key (store st) = None ->
  get node config now clock st key = (st, JUndefined).
Proof. intros Hget. unfold get. now rewrite Hget. Qed.

End StoreFacts.

(** ** Helpers on unique keys *)

Lemma wf_filter (f : string * StoredObject.t -> bool) m :
  JsMap.wf m -> JsMap.wf (filter f m).
Proof.
  unfold JsMap.wf, JsMap.keys.
  induction m as [|e m IH]; simpl; [easy|].
  intros Hnd. inversion Hnd as [|? ? Hnot Hnd']; subst.
  destruct (f e); simpl; [|auto].
  constructor; [|auto].
  intros Hin. apply Hnot. apply in_map_iff in Hin as [x [Hx Hin]].
  apply filter_In in Hin as [Hin _]. rewrite <- Hx. now apply in_map.
Qed.


(** ** Invariants of the store

    Every state the operations reach from the constructor has unique keys
    and holds serializable values only, so the premises the statements below
    make about the store are met by every state that arises. *)

Section Invariants.

Variable node : Runtime.
Variable config : StorageConfig.

Lemma newStorage_ok nodes : storeOk (newStorage nodes).
Proof. split; constructor. Qed.

Lemma encryptData_defined iv v :
  v <> JUndefined -> encryptData node config iv v <> JUndefined.
Proof.
  intros Hv. unfold encryptData.
  destruct (negb _); [exact Hv|].
  destruct (cipherAvailable node); [|exact Hv].
  destruct (JSON.stringify v); [discriminate|exact Hv].
Qed.

Lemma valuesDefined_set m key obj :
  StoredObject.value obj <> JUndefined ->
  valuesDefined m -> valuesDefined (JsMap.set key obj m).
Proof.
  intros Hobj. unfold valuesDefined.
  induction m as [|[k o] m IH]; simpl; intros Hm.
  - now repeat constructor.
  - inversion Hm as [|? ? Ho Hm']; subst.
    destruct (String.eqb k key); constructor; auto.
Qed.

Lemma performCleanup_ok now st :
  storeOk st -> storeOk (fst (performCleanup config now st)).
Proof.
  intros [Hwf Hdef]. split.
  - unfold performCleanup. simpl. rewrite (expired_removed now _ Hwf).
    destruct (overLimit config (sizeTracker st)); [|now apply wf_filter].
    destruct (evictOldest_spec config (sortByCreatedAt (live now (store st))))
      with (st := withStore st (live now (store st)) (sizeTracker st))
      as [removed [kept [_ [Hrun _]]]].
    + eapply valuesDefined_incl; [|exact Hdef].
      intros e He. eapply Permutation_in in He; [|apply sortByCreatedAt_perm].
      apply filter_In in He. tauto.
    + rewrite Hrun. simpl. rewrite JsMapFacts.delete_all.
      apply wf_filter. now apply wf_filter.
  - eapply valuesDefined_incl; [|exact Hdef].
    intros e. apply performCleanup_store_incl.
Qed.

Lemma set_ok env st key v options :
  storeOk st -> storeOk (fst (set node config env st key v options)).
Proof.
  intros Hok. destruct (serializedLength v) as [n|] eqn:Hn.
  - assert (Hv : v <> JUndefined).
    { intros ->. discriminate. }
    assert (H1 : storeOk (stateAtInsert config env st v)).
    { unfold stateAtInsert. rewrite Hn.
      destruct (overLimit config (sizeTracker st + n)); [|exact Hok].
      now apply performCleanup_ok. }
    destruct (set_runs node config env st key v options n Hn (proj2 Hok))
      as [_ Hview].
    injection Hview as Hstore _. unfold storeOk. rewrite Hstore.
    destruct H1 as [Hwf Hdef]. split.
    + now apply JsMapFacts.set_wf.
    + apply valuesDefined_set; [|exact Hdef]. simpl.
      destruct (enableEncryption config); [|exact Hv].
      now apply encryptData_defined.
  - unfold set. now rewrite Hn.
Qed.

Lemma delete_ok clock st key :
  storeOk st -> storeOk (fst (delete config clock st key)).
Proof.
  intros [Hwf Hdef]. unfold delete.
  destruct (JsMap.get key (store st)); [|now split].
  destruct (serializedLength _) as [z|]; [|now split].
  assert (Hl : store (if enableReplication config
                      then replicateDelete config clock
                             (withStore st (JsMap.delete key (store st))
                                (Z.max 0 (sizeTracker st - z)))
                      else withStore st (JsMap.delete key (store st))
                             (Z.max 0 (sizeTracker st - z)))
               = JsMap.delete key (store st)).
  { destruct (enableReplication config); [|reflexivity].
    pose proof (replicateDelete_local config clock
                  (withStore st (JsMap.delete key (store st))
                     (Z.max 0 (sizeTracker st - z)))) as H.
    now injection H as H _. }
  unfold storeOk. cbn [fst]. rewrite Hl. split.
  - now apply JsMapFacts.delete_sublist_wf.
  - eapply valuesDefined_incl; [|exact Hdef].
    intros e He. now apply JsMapFacts.in_delete in He.
Qed.

Lemma get_ok now clock st key :
  storeOk st -> storeOk (fst (get node config now clock st key)).
Proof.
  intros Hok. unfold get.
  destruct (JsMap.get key (store st)) as [obj|]; [|exact Hok].
  destruct (ttlElapsed now obj); [|exact Hok].
  now apply delete_ok.
Qed.

End Invariants.

(** * The claims *)

(** Unique keys and serializable values of a store written out in full. *)
Ltac literal_wf :=
  unfold JsMap.wf; simpl; repeat constructor; simpl; intuition discriminate.

Ltac literal_defined := repeat constructor; discriminate.

(** Claim C1.  Round trip: on a store of serializable values, [set] of a key
    with a value that survives [JSON.parse(JSON.stringify(v))] resolves to
    [true], and a [get] of that key made before the [ttl] of the write has run
    out returns the value and leaves the state alone.  This holds with
    encryption disabled, with encryption enabled and a cipher whose decipher
    inverts it (the stored value is then the envelope [encryptData] built, and
    [get] returns what [decryptData] makes of it), and with encryption enabled
    on a runtime without the cipher. *)
Theorem set_then_get_roundtrip
    (node : Runtime) (config : StorageConfig) (env : Observed) (st : Storage)
    (key : string) (v : jsval) (options : option Options.t)
    (now : Z) (clock : nat -> Z) :
  storable node v ->
  cipherSound node ->
  ivHex env <> "" ->
  valuesDefined (store st) ->
  withinTtl options (updatedNow env) now ->
  let st' := fst (set node config env st key v options) in
  snd (set node config env st key v options) = true /\
  (enableEncryption config = true ->
   option_map StoredObject.value (JsMap.get key (store st'))
   = Some (encryptData node config (ivHex env) v)) /\
  get node config now clock st' key = (st', v).
Proof.
  intros Hv Hc Hiv Hdef Httl st'.
  destruct Hv as [s [Hs Hp]].
  assert (Hn : serializedLength v = Some (Z.of_nat (String.length s)))
    by (unfold serializedLength; now rewrite Hs).
  destruct (set_runs node config env st key v options _ Hn Hdef) as [Hok Hview].
  fold st' in Hview. injection Hview as Hstore _.
  set (obj := newObject node config env
                (JsMap.get key (store (stateAtInsert config env st v))) key v options)
    in Hstore.
  assert (Hget : JsMap.get key (store st') = Some obj)
    by (rewrite Hstore; apply JsMapFacts.get_set_same).
  assert (Hlive : ttlElapsed now obj = false).
  { unfold ttlElapsed. simpl. destruct (ttlOf options) as [t|] eqn:Et; [|easy].
    destruct (Httl t Et) as [->|Hle]; [easy|].
    apply andb_false_iff. right. rewrite Z.gtb_ltb. now apply Z.ltb_ge. }
  split; [exact Hok|]. split.
  - intros Henc. rewrite Hget. simpl. now rewrite Henc.
  - rewrite (get_present node config now clock st' key obj Hget Hlive). f_equal.
    simpl. destruct (enableEncryption config); [|easy].
    apply decrypt_encrypt; [now exists s|exact Hc|exact Hiv].
Qed.

Lemma set_then_get_roundtrip_witness :
  let st0 := newStorage [Demo.replica "r0" online; Demo.replica "r1" offline] in
  let st' := fst (set Demo.runtime defaultConfig (Demo.at_ 100 "id1") st0 "k"
                    (JNum 7) (Demo.ttlOnly 1000)) in
  snd (set Demo.runtime defaultConfig (Demo.at_ 100 "id1") st0 "k"
         (JNum 7) (Demo.ttlOnly 1000)) = true /\
  (enableEncryption defaultConfig = true ->
   option_map StoredObject.value (JsMap.get "k" (store st'))
   = Some (encryptData Demo.runtime defaultConfig
             (ivHex (Demo.at_ 100 "id1")) (JNum 7))) /\
  get Demo.runtime defaultConfig 600 (fun _ => 600) st' "k" = (st', JNum 7).
Proof.
  apply (set_then_get_roundtrip Demo.runtime defaultConfig (Demo.at_ 100 "id1")
           (newStorage [Demo.replica "r0" online; Demo.replica "r1" offline])
           "k" (JNum 7) (Demo.ttlOnly 1000) 600 (fun _ => 600)).
  - exists "7". split; reflexivity.
  - intros t. split; [reflexivity|discriminate].
  - discriminate.
  - constructor.
  - intros t [= <-]. right. simpl. lia.
Defined.

(** Claim C2, as the code has it.  [set] has no capacity rejection: on a
    store of serializable values it resolves to [false] exactly when the value
    has no serialization ([undefined]), and then the state is untouched;
    every other [set] resolves to [true] and leaves the object under its key,
    with the counter of the state it inserted into raised by the size of the
    value, whatever the limit is. *)
Theorem set_never_rejects_for_capacity
    (node : Runtime) (config : StorageConfig) (env : Observed) (st : Storage)
    (key : string) (v : jsval) (options : option Options.t) :
  valuesDefined (store st) ->
  let r := set node config env st key v options in
  (v = JUndefined -> r = (st, false)) /\
  (v <> JUndefined ->
   snd r = true /\
   exists obj n,
     serializedLength v = Some n /\
     JsMap.get key (store (fst r)) = Some obj /\
     StoredObject.value obj
     = (if enableEncryption config then encryptData node config (ivHex env) v else v) /\
     sizeTracker (fst r) = sizeTracker (stateAtInsert config env st v) + n).
Proof.
  intros Hdef r. split.
  - intros ->. reflexivity.
  - intros Hv. destruct (serializedLength_defined v Hv) as [n [Hn _]].
    destruct (set_runs node config env st key v options n Hn Hdef) as [Hok Hview].
    fold r in Hok, Hview. split; [exact Hok|].
    injection Hview as Hstore Hsize.
    eexists. exists n. split; [exact Hn|]. split.
    + rewrite Hstore. apply JsMapFacts.get_set_same.
    + split; [reflexivity|exact Hsize].
Qed.

Lemma set_never_rejects_for_capacity_witness :
  let st := Demo.twoWrites None in
  let r := set Demo.runtime Demo.tiny (Demo.at_ 300 "id3") st "m" (JStr "c") None in
  (JStr "c" = JUndefined -> r = (st, false)) /\
  (JStr "c" <> JUndefined ->
   snd r = true /\
   exists obj n,
     serializedLength (JStr "c") = Some n /\
     JsMap.get "m" (store (fst r)) = Some obj /\
     StoredObject.value obj
     = (if enableEncryption Demo.tiny
        then encryptData Demo.runtime Demo.tiny (ivHex (Demo.at_ 300 "id3")) (JStr "c")
        else JStr "c") /\
     sizeTracker (fst r)
     = sizeTracker (stateAtInsert Demo.tiny (Demo.at_ 300 "id3") st (JStr "c")) + n).
Proof.
  apply (set_never_rejects_for_capacity Demo.runtime Demo.tiny
           (Demo.at_ 300 "id3") (Demo.twoWrites None) "m" (JStr "c") None).
  literal_defined.
Defined.

(** Claim C2 fails as stated.  Under a limit of 8 characters the store holds
    two objects of 3 characters each.  A third [set] of 3 characters has a
    projected size of 9, above the limit; the cleanup it runs finds nothing to
    remove, so the projected size is still 9.  The [set] resolves to [true]
    all the same, the store then holds the third object and the counter
    stands at 9, above the limit. *)
Lemma set_inserts_above_the_limit :
  let config := Demo.tiny in
  let st := Demo.twoWrites None in
  let r := set Demo.runtime config (Demo.at_ 300 "id3") st "m" (JStr "c") None in
  sizeTracker st = 6 /\
  serializedLength (JStr "c") = Some 3 /\
  overLimit config (sizeTracker st + 3) = true /\
  overLimit config (sizeTracker (fst (performCleanup config 300 st)) + 3) = true /\
  snd r = true /\
  JsMap.get "m" (store (fst r))
  = Some (StoredObject.mk "id3" "m" (JStr "c") 300 300 1 [] None) /\
  sizeTracker (fst r) = 9 /\
  overLimit config (sizeTracker (fst r)) = true /\
  localView (fst r) <> localView st.
Proof.
  cbv. repeat split; discriminate.
Qed.

(** Claim C3, as the code has it.  When the attempt to decrypt the stored
    envelope of a key whose [ttl] has not run out throws (no cipher in the
    runtime, a ciphertext the decipher rejects, or a deciphered text that
    does not parse), [get] returns the stored envelope itself and leaves the
    state as it was. *)
Theorem get_returns_envelope_when_decryption_throws
    (node : Runtime) (config : StorageConfig) (now : Z) (clock : nat -> Z)
    (st : Storage) (key : string) (obj : StoredObject.t) (h i : string) :
  enableEncryption config = true ->
  JsMap.get key (store st) = Some obj ->
  ttlElapsed now obj = false ->
  StoredObject.value obj = JObj [("encrypted", JStr h); ("iv", JStr i)] ->
  (cipherAvailable node = false \/
   unaes192 node h = None \/
   exists s, unaes192 node h = Some s /\ parse node s = None) ->
  get node config now clock st key = (st, StoredObject.value obj).
Proof.
  intros Henc Hget Hlive Hval Hthrow.
  rewrite (get_present node config now clock st key obj Hget Hlive), Henc.
  f_equal. unfold decryptData. rewrite Henc. simpl.
  rewrite Hval. unfold tryDecrypt. simpl.
  destruct (negb (String.eqb h "") && negb (String.eqb i "")) eqn:Et.
  - destruct Hthrow as [Hav|[Hun|[s [Hun Hp]]]].
    + now rewrite Hav.
    + destruct (cipherAvailable node); [now rewrite Hun|easy].
    + destruct (cipherAvailable node); [now rewrite Hun, Hp|easy].
  - reflexivity.
Qed.

Lemma get_returns_envelope_when_decryption_throws_witness :
  get Demo.runtime Demo.sealed 200 (fun _ => 200) (Demo.holding (Demo.envelope "d7")) "k"
  = (Demo.holding (Demo.envelope "d7"), Demo.envelope "d7").
Proof.
  apply (get_returns_envelope_when_decryption_throws Demo.runtime Demo.sealed 200
           (fun _ => 200) (Demo.holding (Demo.envelope "d7")) "k"
           (StoredObject.mk "id1" "k" (Demo.envelope "d7") 100 100 1 [] None)
           "d7" "00000000000000000000000000000000").
  - reflexivity.
  - reflexivity.
  - reflexivity.
  - reflexivity.
  - right. left. reflexivity.
Defined.

(** Claim C3 fails as stated.  [set] of the value 7 stores the envelope with
    the ciphertext [c7].  With one bit of that byte flipped ([d7]) the
    decipher throws, and [get] returns normally, with the stored envelope
    as its result: raw data that was never decrypted. *)
Lemma get_returns_raw_envelope_after_tamper :
  fst (set Demo.runtime Demo.sealed (Demo.at_ 100 "id1") (newStorage []) "k"
         (JNum 7) None)
  = Demo.holding (Demo.envelope "c7") /\
  get Demo.runtime Demo.sealed 200 (fun _ => 200) (Demo.holding (Demo.envelope "c7")) "k"
  = (Demo.holding (Demo.envelope "c7"), JNum 7) /\
  unaes192 Demo.runtime "d7" = None /\
  get Demo.runtime Demo.sealed 200 (fun _ => 200) (Demo.holding (Demo.envelope "d7")) "k"
  = (Demo.holding (Demo.envelope "d7"),
     JObj [("encrypted", JStr "d7"); ("iv", JStr "00000000000000000000000000000000")]).
Proof.
  repeat split; reflexivity.
Qed.

(** Claim C4, as the code has it.  [get] returns [undefined] for an absent
    key.  For a present key with a [ttl] other than 0 it returns [undefined]
    once [now - updatedAt] is strictly above the [ttl], and the entry is then
    deleted and its size taken off the counter; at [now - updatedAt = ttl]
    and below, for a [ttl] of 0 and without a [ttl], it returns the value and
    leaves the state alone. *)
Theorem get_ttl_is_strict
    (node : Runtime) (config : StorageConfig) (now : Z) (clock : nat -> Z)
    (st : Storage) (key : string) :
  valuesDefined (store st) ->
  match JsMap.get key (store st) with
  | None => get node config now clock st key = (st, JUndefined)
  | Some obj =>
      let found :=
        (st, if enableEncryption config
             then decryptData node config (StoredObject.value obj)
             else StoredObject.value obj) in
      match StoredObject.ttl obj with
      | None => get node config now clock st key = found
      | Some t =>
          (t = 0 \/ now - StoredObject.updatedAt obj <= t ->
           get node config now clock st key = found) /\
          (t <> 0 /\ now - StoredObject.updatedAt obj > t ->
           snd (get node config now clock st key) = JUndefined /\
           JsMap.get key (store (fst (get node config now clock st key))) = None /\
           exists n,
             serializedLength (StoredObject.value obj) = Some n /\
             localView (fst (get node config now clock st key))
             = (JsMap.delete key (store st), Z.max 0 (sizeTracker st - n)))
      end
  end.
Proof.
  intros Hdef. destruct (JsMap.get key (store st)) as [obj|] eqn:Hget.
  - simpl. destruct (StoredObject.ttl obj) as [t|] eqn:Et.
    + split.
      * intros Hlive. apply get_present; [exact Hget|].
        unfold ttlElapsed. rewrite Et.
        destruct Hlive as [->|Hle]; [easy|].
        apply andb_false_iff. right. rewrite Z.gtb_ltb. now apply Z.ltb_ge.
      * intros [Hnz Hgt].
        assert (Hexp : ttlElapsed now obj = true).
        { unfold ttlElapsed. rewrite Et. apply andb_true_iff. split.
          - apply negb_true_iff. now apply Z.eqb_neq.
          - rewrite Z.gtb_ltb. apply Z.ltb_lt. lia. }
        assert (Hobj : StoredObject.value obj <> JUndefined).
        { unfold valuesDefined in Hdef. rewrite Forall_forall in Hdef.
          apply (Hdef (key, obj)). now apply JsMapFacts.get_in. }
        destruct (serializedLength_defined _ Hobj) as [n [Hn _]].
        unfold get. rewrite Hget, Hexp. unfold delete. rewrite Hget, Hn. simpl.
        split; [easy|].
        assert (Hview : localView
                  (if enableReplication config
                   then replicateDelete config clock
                          (withStore st (JsMap.delete key (store st))
                             (Z.max 0 (sizeTracker st - n)))
                   else withStore st (JsMap.delete key (store st))
                          (Z.max 0 (sizeTracker st - n)))
                = (JsMap.delete key (store st), Z.max 0 (sizeTracker st - n))).
        { destruct (enableReplication config); [|easy].
          now rewrite replicateDelete_local. }
        split.
        -- injection Hview as Hs _. rewrite Hs. apply JsMapFacts.get_delete_same.
        -- exists n. split; [easy|exact Hview].
    + apply get_present; [exact Hget|]. unfold ttlElapsed. now rewrite Et.
  - now apply get_absent.
Qed.

Lemma get_ttl_is_strict_witness :
  let st := fst (set Demo.runtime Demo.plain (Demo.at_ 5000 "id1")
                   (newStorage []) "k" (JStr "a") (Demo.ttlOnly 1000)) in
  valuesDefined (store st) /\
  get Demo.runtime Demo.plain 6000 (fun _ => 6000) st "k" = (st, JStr "a") /\
  snd (get Demo.runtime Demo.plain 6001 (fun _ => 6001) st "k") = JUndefined /\
  JsMap.get "k"
    (store (fst (get Demo.runtime Demo.plain 6001 (fun _ => 6001) st "k")))
  = None.
Proof.
  intros st.
  assert (Hdef : valuesDefined (store st)) by literal_defined.
  split; [exact Hdef|].
  pose proof (get_ttl_is_strict Demo.runtime Demo.plain 6000 (fun _ => 6000)
                st "k" Hdef) as Hat.
  pose proof (get_ttl_is_strict Demo.runtime Demo.plain 6001 (fun _ => 6001)
                st "k" Hdef) as Hpast.
  simpl in Hat, Hpast.
  destruct Hat as [Hat _]. destruct Hpast as [_ Hpast].
  split.
  - apply Hat. right. lia.
  - destruct Hpast as [Hu [Hgone _]]; [split; lia|].
    split; [exact Hu|exact Hgone].
Defined.

(** Claim C4 fails as stated at the boundary.  An object written at 5000 with
    a [ttl] of 1000 is read at 6000, when [now - updatedAt] equals the [ttl]:
    [get] returns the value and the object stays. *)
Lemma get_at_ttl_boundary_returns_value :
  let st := fst (set Demo.runtime Demo.plain (Demo.at_ 5000 "id1")
                   (newStorage []) "k" (JStr "a") (Demo.ttlOnly 1000)) in
  JsMap.get "k" (store st)
  = Some (StoredObject.mk "id1" "k" (JStr "a") 5000 5000 1 [] (Some 1000)) /\
  6000 - 5000 >= 1000 /\
  get Demo.runtime Demo.plain 6000 (fun _ => 6000) st "k" = (st, JStr "a") /\
  snd (get Demo.runtime Demo.plain 6000 (fun _ => 6000) st "k") <> JUndefined.
Proof.
  repeat split; try reflexivity; try discriminate.
Qed.








(** Claim C6 is not what the code does.  Three runs from the fresh store.
    (1) Two [set]s of the same key: the counter stands at 6 characters while
    the store holds 3.  (2) Under a limit of 8 characters, a [set] whose
    cleanup drops an expired entry: the entry leaves the store, its 3
    characters stay in the counter, which ends at 9 with 6 stored.  (3) With
    encryption enabled, [set] of a second key raises the counter from 1 to 2
    and the [delete] of that key, which measures the stored envelope, brings
    it to 0 and not back to 1. *)
Theorem sizeTracker_drifts_from_stored_size :
  (let st1 := Demo.write Demo.plain 100 "id1" "k" (JStr "a") None (newStorage []) in
   let st2 := Demo.write Demo.plain 200 "id2" "k" (JStr "b") None st1 in
   (sizeTracker st1, storedSize (store st1)) = (3, 3) /\
   (sizeTracker st2, storedSize (store st2)) = (6, 3)) /\
  (let st2 := Demo.twoWrites (Demo.ttlOnly 1000) in
   let st3 := Demo.write Demo.tiny 5000 "id3" "m" (JStr "c") None st2 in
   (sizeTracker st2, storedSize (store st2)) = (6, 6) /\
   JsMap.get "k" (store st3) = None /\
   (sizeTracker st3, storedSize (store st3)) = (9, 6)) /\
  (let st1 := Demo.write Demo.sealed 100 "id1" "a" (JNum 7) None (newStorage []) in
   let st2 := Demo.write Demo.sealed 200 "id2" "b" (JNum 7) None st1 in
   let st3 := fst (delete Demo.sealed (fun _ => 300) st2 "b") in
   (sizeTracker st1, sizeTracker st2, sizeTracker st3) = (1, 2, 0)).
Proof.
  repeat split; reflexivity.
Qed.

(** Claim C7, as the code has it.  On a store of serializable values, [set]
    of a value with a serialization resolves to [true] (a boolean, the
    version is no part of the result) and leaves under the key an object
    whose version is the one found under the key plus 1, or 1 when the key is
    not in the store at the moment the object is built.  That moment comes
    after the cleanup, if the projected size called for one; without a
    cleanup the store looked up is the one [set] was called in, and an entry
    that survives the cleanup is the entry that was there before. *)
Theorem set_version_step
    (node : Runtime) (config : StorageConfig) (env : Observed) (st : Storage)
    (key : string) (v : jsval) (options : option Options.t) (n : Z) :
  JsMap.wf (store st) ->
  valuesDefined (store st) ->
  serializedLength v = Some n ->
  let st1 := stateAtInsert config env st v in
  let st' := fst (set node config env st key v options) in
  snd (set node config env st key v options) = true /\
  option_map StoredObject.version (JsMap.get key (store st'))
  = Some (match JsMap.get key (store st1) with
          | Some e => StoredObject.version e + 1
          | None => 1
          end) /\
  (overLimit config (sizeTracker st + n) = false -> st1 = st) /\
  (forall e, JsMap.get key (store st1) = Some e -> JsMap.get key (store st) = Some e).
Proof.
  intros Hwf Hdef Hn st1 st'.
  destruct (set_runs node config env st key v options n Hn Hdef) as [Hok Hview].
  fold st' st1 in Hview. injection Hview as Hstore _.
  split; [exact Hok|]. split.
  - rewrite Hstore, JsMapFacts.get_set_same. reflexivity.
  - split.
    + intros Hfit. unfold st1, stateAtInsert. now rewrite Hn, Hfit.
    + intros e He. apply JsMapFacts.get_in in He.
      apply JsMapFacts.in_get; [exact Hwf|].
      unfold st1, stateAtInsert in He. rewrite Hn in He.
      destruct (overLimit config (sizeTracker st + n)); [|exact He].
      now apply performCleanup_store_incl in He.
Qed.

Lemma set_version_step_witness :
  let st := fst (set Demo.runtime Demo.plain (Demo.at_ 100 "id1")
                   (newStorage []) "k" (JStr "a") None) in
  let st' := fst (set Demo.runtime Demo.plain (Demo.at_ 200 "id2")
                    st "k" (JStr "b") None) in
  option_map StoredObject.version (JsMap.get "k" (store st)) = Some 1 /\
  snd (set Demo.runtime Demo.plain (Demo.at_ 200 "id2") st "k" (JStr "b") None)
  = true /\
  option_map StoredObject.version (JsMap.get "k" (store st')) = Some 2.
Proof.
  intros st st'. split; [reflexivity|].
  assert (Hwf : JsMap.wf (store st)) by literal_wf.
  assert (Hdef : valuesDefined (store st)) by literal_defined.
  destruct (set_version_step Demo.runtime Demo.plain (Demo.at_ 200 "id2")
              st "k" (JStr "b") None 3 Hwf Hdef eq_refl) as [Hok [Hver _]].
  split; [exact Hok|exact Hver].
Defined.

(** Claim C7 fails as stated.  (1) After two [set]s the key is at version 2;
    a [delete] and a third [set] leave it at version 1.  (2) Under a limit of
    8 characters the key [k] is written twice (version 2) and the key [j]
    once, which takes the counter to 9.  The cleanup of the next [set] of [k]
    evicts [k], the oldest entry, before the lookup, and that [set] leaves
    [k] at version 1. *)
Lemma version_restarts_at_one :
  (let st2 := Demo.write Demo.plain 200 "id2" "k" (JStr "b") None
                (Demo.write Demo.plain 100 "id1" "k" (JStr "a") None (newStorage [])) in
   let st3 := fst (delete Demo.plain (fun _ => 300) st2 "k") in
   let st4 := Demo.write Demo.plain 400 "id4" "k" (JStr "c") None st3 in
   option_map StoredObject.version (JsMap.get "k" (store st2)) = Some 2 /\
   option_map StoredObject.version (JsMap.get "k" (store st4)) = Some 1) /\
  (let st3 := Demo.write Demo.tiny 200 "id3" "j" (JStr "c") None
                (Demo.write Demo.tiny 150 "id2" "k" (JStr "b") None
                   (Demo.write Demo.tiny 100 "id1" "k" (JStr "a") None (newStorage []))) in
   let st4 := Demo.write Demo.tiny 400 "id4" "k" (JStr "d") None st3 in
   option_map StoredObject.version (JsMap.get "k" (store st3)) = Some 2 /\
   option_map StoredObject.version (JsMap.get "k" (store st4)) = Some 1).
Proof.
  repeat split; reflexivity.
Qed.

(** Claim C8 is not what the code does.  An object written at 0 with the tag
    [t] and a [ttl] of 1000 has expired at 5000 by the test [get] applies:
    [get] reports it missing.  [findByTag], which reads no clock and no
    [ttl], returns its value from that same state. *)
Theorem findByTag_returns_expired_value :
  let config := Demo.plain in
  let st := fst (set Demo.runtime config (Demo.at_ 0 "id1") (newStorage [])
                   "k" (JStr "a") (Demo.tagged "t" 1000)) in
  JsMap.get "k" (store st)
  = Some (StoredObject.mk "id1" "k" (JStr "a") 0 0 1 ["t"] (Some 1000)) /\
  snd (get Demo.runtime config 5000 (fun _ => 5000) st "k") = JUndefined /\
  findByTag Demo.runtime config st "t" = [JStr "a"].
Proof.
  repeat split; reflexivity.
Qed.

(** ** The local store and the replicas *)

Section Replication.

Variable node : Runtime.
Variable config : StorageConfig.

Lemma localView_eq st1 st2 :
  localView st1 = localView st2 ->
  store st1 = store st2 /\ sizeTracker st1 = sizeTracker st2.
Proof. unfold localView. intros [= H1 H2]. now split. Qed.

Lemma evictOldest_local entries :
  forall st1 st2,
    localView st1 = localView st2 ->
    localView (fst (evictOldest config entries st1))
    = localView (fst (evictOldest config entries st2)) /\
    snd (evictOldest config entries st1) = snd (evictOldest config entries st2).
Proof.
  induction entries as [|[k obj] rest IH]; intros st1 st2 Hview; simpl.
  - now split.
  - destruct (localView_eq _ _ Hview) as [Hs Hz]. rewrite Hs, Hz.
    destruct (overTarget config (sizeTracker st2)); [|now split].
    destruct (serializedLength _); [|now split].
    apply IH. reflexivity.
Qed.

Lemma performCleanup_local now st1 st2 :
  localView st1 = localView st2 ->
  localView (fst (performCleanup config now st1))
  = localView (fst (performCleanup config now st2)) /\
  snd (performCleanup config now st1) = snd (performCleanup config now st2).
Proof.
  intros Hview. destruct (localView_eq _ _ Hview) as [Hs Hz].
  unfold performCleanup. simpl. rewrite Hs, Hz.
  destruct (overLimit config (sizeTracker st2)); [|now split].
  apply evictOldest_local. reflexivity.
Qed.

Lemma newObject_agree env1 env2 existing key v options :
  agreeOutsideReplication env1 env2 ->
  newObject node config env1 existing key v options
  = newObject node config env2 existing key v options.
Proof.
  intros [_ [Hid [Hiv [Hc Hu]]]]. unfold newObject. now rewrite Hid, Hiv, Hc, Hu.
Qed.

End Replication.

(** Claim C9.  Two calls of [set] with the same key, value and options, in
    states that agree on the key map and the counter and under the same clock
    and random readings outside the replication loop, resolve to the same
    boolean and leave the same key map (versions included) and the same
    counter, whatever the two lists of replicas and their statuses are and
    whenever the replicas are reached.  The model of [replicateSet] has no
    failing outcome, as the loop it embeds has none. *)
Theorem set_local_outcome_independent_of_replicas
    (node : Runtime) (config : StorageConfig) (env1 env2 : Observed)
    (st1 st2 : Storage) (key : string) (v : jsval) (options : option Options.t) :
  localView st1 = localView st2 ->
  agreeOutsideReplication env1 env2 ->
  snd (set node config env1 st1 key v options)
  = snd (set node config env2 st2 key v options) /\
  localView (fst (set node config env1 st1 key v options))
  = localView (fst (set node config env2 st2 key v options)).
Proof.
  intros Hview Henv.
  destruct (localView_eq _ _ Hview) as [Hs Hz].
  pose proof (performCleanup_local config (cleanupNow env2) st1 st2 Hview) as [Hcl Hcs].
  unfold set. destruct (serializedLength v) as [n|]; [|now split].
  destruct Henv as [Hnow Hrest]. rewrite Hnow, Hz.
  destruct (overLimit config (sizeTracker st2 + n)).
  - destruct (performCleanup config (cleanupNow env2) st1) as [a ca].
    destruct (performCleanup config (cleanupNow env2) st2) as [b cb].
    simpl in Hcl, Hcs. subst cb.
    destruct (localView_eq _ _ Hcl) as [Has Haz].
    destruct ca; [|now split].
    split; [reflexivity|].
    rewrite (newObject_agree node config env1 env2) by (split; assumption).
    destruct (enableReplication config); cbn [fst]; rewrite ?replicateSet_local;
      unfold localView; simpl; now rewrite Has, Haz.
  - split; [reflexivity|].
    rewrite (newObject_agree node config env1 env2) by (split; assumption).
    destruct (enableReplication config); cbn [fst]; rewrite ?replicateSet_local;
      unfold localView; simpl; now rewrite Hs, Hz.
Qed.

Lemma set_local_outcome_independent_of_replicas_witness :
  let reachable := newStorage [Demo.replica "r0" online; Demo.replica "r1" online] in
  let unreachable := newStorage [Demo.replica "r7" offline] in
  let late := {| cleanupNow := 100; freshId := "id1";
                 ivHex := "00000000000000000000000000000000";
                 createdNow := 100; updatedNow := 100;
                 replicaNow := fun i => 150 + Z.of_nat i |} in
  snd (set Demo.runtime defaultConfig (Demo.at_ 100 "id1") reachable "k" (JNum 7) None)
  = snd (set Demo.runtime defaultConfig late unreachable "k" (JNum 7) None) /\
  localView
    (fst (set Demo.runtime defaultConfig (Demo.at_ 100 "id1") reachable "k" (JNum 7) None))
  = localView
      (fst (set Demo.runtime defaultConfig late unreachable "k" (JNum 7) None)).
Proof.
  intros reachable unreachable late.
  apply (set_local_outcome_independent_of_replicas Demo.runtime defaultConfig
           (Demo.at_ 100 "id1") late reachable unreachable "k" (JNum 7) None).
  - reflexivity.
  - repeat split; reflexivity.
Defined.

(** Claim C10, as the code has it.  [set] looks the key up after the
    cleanup, if the projected size called for one (without a cleanup the
    store looked up is the one [set] was called in).  When the key is found
    there, with a non-empty id, the object [set] leaves under the key has the
    [createdAt] and the id of the one found, its version plus 1, and the
    value, [updatedAt], tags and [ttl] of this call.  When the key is not
    found there, the object is a new one: the id [generateId] made, the
    [createdAt] of the call and version 1. *)
Theorem set_update_keeps_createdAt_and_id
    (node : Runtime) (config : StorageConfig) (env : Observed) (st : Storage)
    (key : string) (v : jsval) (options : option Options.t) (n : Z) :
  valuesDefined (store st) ->
  serializedLength v = Some n ->
  let st1 := stateAtInsert config env st v in
  let st' := fst (set node config env st key v options) in
  let stored := if enableEncryption config
                then encryptData node config (ivHex env) v else v in
  (overLimit config (sizeTracker st + n) = false -> st1 = st) /\
  match JsMap.get key (store st1) with
  | Some e =>
      StoredObject.id e <> "" ->
      JsMap.get key (store st')
      = Some (StoredObject.mk (StoredObject.id e) key stored
                (StoredObject.createdAt e) (updatedNow env)
                (StoredObject.version e + 1) (tagsOf options) (ttlOf options))
  | None =>
      JsMap.get key (store st')
      = Some (StoredObject.mk (freshId env) key stored
                (createdNow env) (updatedNow env) 1 (tagsOf options) (ttlOf options))
  end.
Proof.
  intros Hdef Hn st1 st' stored. split.
  - intros Hfit. unfold st1, stateAtInsert. now rewrite Hn, Hfit.
  - destruct (set_runs node config env st key v options n Hn Hdef) as [_ Hview].
    fold st1 st' in Hview. injection Hview as Hstore _.
    rewrite Hstore, JsMapFacts.get_set_same.
    destruct (JsMap.get key (store st1)) as [e|]; [|reflexivity].
    intros Hid. f_equal.
    unfold newObject, idFor. apply String.eqb_neq in Hid. now rewrite Hid.
Qed.

Lemma set_update_keeps_createdAt_and_id_witness :
  let st := fst (set Demo.runtime Demo.plain (Demo.at_ 100 "id1")
                   (newStorage []) "k" (JStr "a") None) in
  JsMap.get "k" (store st)
  = Some (StoredObject.mk "id1" "k" (JStr "a") 100 100 1 [] None) /\
  JsMap.get "k"
    (store (fst (set Demo.runtime Demo.plain (Demo.at_ 200 "id2") st "k"
                   (JStr "b") (Demo.tagged "t" 1000))))
  = Some (StoredObject.mk "id1" "k" (JStr "b") 100 200 2 ["t"] (Some 1000)).
Proof.
  intros st. split; [reflexivity|].
  assert (Hdef : valuesDefined (store st)) by literal_defined.
  destruct (set_update_keeps_createdAt_and_id Demo.runtime Demo.plain
              (Demo.at_ 200 "id2") st "k" (JStr "b") (Demo.tagged "t" 1000) 3
              Hdef eq_refl) as [_ Hkept].
  simpl in Hkept. apply Hkept. discriminate.
Defined.

(** Claim C10 fails as stated.  Under a limit of 8 characters three keys of
    3 characters each are in the store, [k] being the oldest, created at 100
    with the id [id1].  The cleanup that the next [set] of [k] runs evicts
    [k] before the lookup, and the object the call leaves under [k] carries a
    new id and the [createdAt] of the call. *)
Lemma set_on_present_key_renews_createdAt_and_id :
  let st := Demo.threeWrites None in
  let st' := Demo.write Demo.tiny 400 "id4" "k" (JStr "d") None st in
  JsMap.get "k" (store st)
  = Some (StoredObject.mk "id1" "k" (JStr "a") 100 100 1 [] None) /\
  JsMap.get "k" (store st')
  = Some (StoredObject.mk "id4" "k" (JStr "d") 400 400 1 [] None).
Proof.
  split; reflexivity.
Qed.

(** * Further properties of the class *)

Import Maintenance.

Lemma localView_eq_inv st m z :
  localView st = (m, z) -> store st = m /\ sizeTracker st = z.
Proof. unfold localView. intros [= H1 H2]. now split. Qed.

(** ** The two outcomes of [set] *)

Section SetOutcome.

Variable node : Runtime.
Variable config : StorageConfig.

Lemma replicateSet_nodes clock st :
  replicationNodes (replicateSet config clock st)
  = if enableReplication config
    then touchSet clock 0 (replicationNodes st)
    else replicationNodes st.
Proof. unfold replicateSet. now destruct (enableReplication config). Qed.

Lemma replicateDelete_nodes clock st :
  replicationNodes (replicateDelete config clock st)
  = if enableReplication config
    then touchDelete clock 0 (replicationNodes st)
    else replicationNodes st.
Proof. unfold replicateDelete. now destruct (enableReplication config). Qed.

(** Whatever the store holds, a [set] of a value with a serialization either
    inserts into the state its cleanup step left and resolves to [true], or
    stops in that state and resolves to [false] (the cleanup threw). *)
Lemma set_outcome env st key v options n :
  serializedLength v = Some n ->
  let st1 := stateAtInsert config env st v in
  let r := set node config env st key v options in
  let obj := newObject node config env (JsMap.get key (store st1)) key v options in
  (snd r = true /\
   localView (fst r) = (JsMap.set key obj (store st1), sizeTracker st1 + n) /\
   replicationNodes (fst r)
   = (if enableReplication config
      then touchSet (replicaNow env) 0 (replicationNodes st1)
      else replicationNodes st1)) \/
  (snd r = false /\ fst r = st1).
Proof.
  intros Hn. unfold set, stateAtInsert. rewrite Hn.
  destruct (overLimit config (sizeTracker st + n)).
  - destruct (performCleanup config (cleanupNow env) st) as [st1 c].
    destruct c; cbn [fst snd]; [left|right; now split].
    split; [reflexivity|].
    destruct (enableReplication config) eqn:Hr; cbn [fst].
    + rewrite replicateSet_local, replicateSet_nodes, Hr. now split.
    + now split.
  - left. cbn [fst snd]. split; [reflexivity|].
    destruct (enableReplication config) eqn:Hr; cbn [fst].
    + rewrite replicateSet_local, replicateSet_nodes, Hr. now split.
    + now split.
Qed.

Lemma stateAtInsert_cases env st v :
  stateAtInsert config env st v = st \/
  stateAtInsert config env st v = fst (performCleanup config (cleanupNow env) st).
Proof.
  unfold stateAtInsert. destruct (serializedLength v); [|now left].
  destruct (overLimit config _); [now right|now left].
Qed.

(** What [delete] does to a key it finds with a serializable value. *)
Lemma delete_present clock st key obj n :
  JsMap.get key (store st) = Some obj ->
  serializedLength (StoredObject.value obj) = Some n ->
  snd (delete config clock st key) = Some true /\
  localView (fst (delete config clock st key))
  = (JsMap.delete key (store st), Z.max 0 (sizeTracker st - n)) /\
  replicationNodes (fst (delete config clock st key))
  = (if enableReplication config
     then touchDelete clock 0 (replicationNodes st)
     else replicationNodes st).
Proof.
  intros Hget Hn. unfold delete. rewrite Hget, Hn. cbn [fst snd].
  split; [reflexivity|].
  destruct (enableReplication config) eqn:Hr.
  - rewrite replicateDelete_local, replicateDelete_nodes, Hr. now split.
  - now split.
Qed.

Lemma delete_absent clock st key :
  JsMap.get key (store st) = None ->
  delete config clock st key = (st, Some false).
Proof. intros Hget. unfold delete. now rewrite Hget. Qed.

End SetOutcome.

(** ** The counter stays at or above zero *)

Section CounterSign.

Variable node : Runtime.
Variable config : StorageConfig.

Lemma evictOldest_nonneg entries st :
  0 <= sizeTracker st -> 0 <= sizeTracker (fst (evictOldest config entries st)).
Proof.
  revert st. induction entries as [|[k obj] rest IH]; intros st Hst; simpl; [easy|].
  destruct (overTarget config (sizeTracker st)); [|easy].
  destruct (serializedLength _); [|easy].
  apply IH. simpl. lia.
Qed.

Lemma performCleanup_nonneg now st :
  0 <= sizeTracker st -> 0 <= sizeTracker (fst (performCleanup config now st)).
Proof.
  intros Hst. unfold performCleanup. cbn [sizeTracker withStore].
  destruct (overLimit config (sizeTracker st)); [|exact Hst].
  now apply evictOldest_nonneg.
Qed.

Lemma stateAtInsert_nonneg env st v :
  0 <= sizeTracker st -> 0 <= sizeTracker (stateAtInsert config env st v).
Proof.
  intros Hst. destruct (stateAtInsert_cases config env st v) as [-> | ->];
    [exact Hst|now apply performCleanup_nonneg].
Qed.

Lemma set_nonneg env st key v options :
  0 <= sizeTracker st ->
  0 <= sizeTracker (fst (set node config env st key v options)).
Proof.
  intros Hst. destruct (serializedLength v) as [n|] eqn:Hn.
  - pose proof (serializedLength_nonneg v n Hn) as Hpos.
    pose proof (stateAtInsert_nonneg env st v Hst) as H1.
    destruct (set_outcome node config env st key v options n Hn)
      as [[_ [Hview _]]|[_ Hst1]].
    + apply localView_eq_inv in Hview. destruct Hview as [_ Hz]. rewrite Hz. lia.
    + now rewrite Hst1.
  - unfold set. now rewrite Hn.
Qed.

Lemma delete_nonneg clock st key :
  0 <= sizeTracker st -> 0 <= sizeTracker (fst (delete config clock st key)).
Proof.
  intros Hst. destruct (JsMap.get key (store st)) as [obj|] eqn:Hget.
  - destruct (serializedLength (StoredObject.value obj)) as [n|] eqn:Hn.
    + destruct (delete_present config clock st key obj n Hget Hn) as [_ [Hview _]].
      apply localView_eq_inv in Hview. destruct Hview as [_ Hz]. rewrite Hz. lia.
    + unfold delete. now rewrite Hget, Hn.
  - now rewrite delete_absent.
Qed.

End CounterSign.

(** Extra X1.  The size counter never goes below zero: from a state whose
    counter is at or above zero, [performCleanup], [set], [delete] and [get]
    all lead to such a state, whatever their arguments and outcome. *)
Theorem sizeTracker_never_negative
    (node : Runtime) (config : StorageConfig) (st : Storage) :
  0 <= sizeTracker st ->
  (forall now, 0 <= sizeTracker (fst (performCleanup config now st))) /\
  (forall env key v options,
     0 <= sizeTracker (fst (set node config env st key v options))) /\
  (forall clock key, 0 <= sizeTracker (fst (delete config clock st key))) /\
  (forall now clock key, 0 <= sizeTracker (fst (get node config now clock st key))).
Proof.
  intros Hst. repeat split.
  - intros now. now apply performCleanup_nonneg.
  - intros env key v options. now apply set_nonneg.
  - intros clock key. now apply delete_nonneg.
  - intros now clock key. unfold get.
    destruct (JsMap.get key (store st)) as [obj|]; [|exact Hst].
    destruct (ttlElapsed now obj); [|exact Hst].
    now apply delete_nonneg.
Qed.

Lemma sizeTracker_never_negative_witness :
  0 <= sizeTracker (Demo.holding (Demo.envelope "c7")) /\
  0 <= sizeTracker
         (fst (delete Demo.sealed (fun _ => 300) (Demo.holding (Demo.envelope "c7")) "k")).
Proof.
  assert (H0 : 0 <= sizeTracker (Demo.holding (Demo.envelope "c7"))) by (simpl; lia).
  split; [exact H0|].
  apply (sizeTracker_never_negative Demo.runtime Demo.sealed
           (Demo.holding (Demo.envelope "c7")) H0).
Defined.

(** ** Without encryption the counter never under-reports *)

Section CounterBound.

Variable node : Runtime.
Variable config : StorageConfig.

Lemma sizeOfEntry_nonneg e : 0 <= sizeOfEntry e.
Proof.
  unfold sizeOfEntry. destruct (serializedLength _) eqn:E; [|lia].
  eapply serializedLength_nonneg; eauto.
Qed.

Lemma storedSize_cons e m : storedSize (e :: m) = sizeOfEntry e + storedSize m.
Proof.
  unfold storedSize, sizeOfEntry. simpl. now destruct (serializedLength _).
Qed.

Lemma storedSize_nonneg m : 0 <= storedSize m.
Proof.
  induction m as [|e m IH]; [simpl; lia|].
  rewrite storedSize_cons. pose proof (sizeOfEntry_nonneg e). lia.
Qed.

Lemma storedSize_filter f m : storedSize (filter f m) <= storedSize m.
Proof.
  induction m as [|e m IH]; cbn [filter]; [lia|].
  destruct (f e); rewrite !storedSize_cons; pose proof (sizeOfEntry_nonneg e); lia.
Qed.

Lemma storedSize_set key obj m :
  storedSize (JsMap.set key obj m) <= storedSize m + sizeOfEntry (key, obj).
Proof.
  induction m as [|[k o] m IH]; cbn [JsMap.set].
  - rewrite !storedSize_cons. lia.
  - destruct (String.eqb k key); rewrite !storedSize_cons.
    + pose proof (sizeOfEntry_nonneg (k, o)). lia.
    + lia.
Qed.

Lemma storedSize_delete key e m :
  In e m -> fst e = key ->
  storedSize (JsMap.delete key m) + sizeOfEntry e <= storedSize m.
Proof.
  intros Hin Hk. unfold JsMap.delete.
  induction m as [|x m IH]; [contradiction|].
  cbn [filter]. destruct Hin as [->|Hin].
  - rewrite Hk, String.eqb_refl. cbn [negb]. rewrite storedSize_cons.
    pose proof (storedSize_filter (fun e0 => negb (String.eqb (fst e0) key)) m). lia.
  - specialize (IH Hin). destruct (String.eqb (fst x) key); cbn [negb];
      rewrite !storedSize_cons; pose proof (sizeOfEntry_nonneg x); lia.
Qed.

(** The eviction loop over a snapshot of distinct keys that are all in the
    store. *)
Lemma evictOldest_bound entries :
  NoDup (map fst entries) ->
  forall st,
    (forall e, In e entries -> In e (store st)) ->
    storedSize (store st) <= sizeTracker st ->
    storedSize (store (fst (evictOldest config entries st)))
    <= sizeTracker (fst (evictOldest config entries st)).
Proof.
  induction entries as [|[k obj] rest IH]; intros Hnd st Hin Hle; simpl; [exact Hle|].
  destruct (overTarget config (sizeTracker st)); [|exact Hle].
  destruct (serializedLength (StoredObject.value obj)) as [n|] eqn:Hn; [|exact Hle].
  inversion Hnd as [|? ? Hnot Hnd']; subst.
  apply IH; [exact Hnd'| |].
  - intros e He. simpl. apply JsMapFacts.in_delete. split.
    + apply Hin. now right.
    + intros Hk. apply Hnot. rewrite <- Hk. now apply in_map.
  - simpl.
    pose proof (storedSize_delete k (k, obj) (store st) (Hin _ (or_introl eq_refl))
                  eq_refl) as Hd.
    unfold sizeOfEntry in Hd. simpl in Hd. rewrite Hn in Hd. lia.
Qed.

Lemma performCleanup_bound now st :
  JsMap.wf (store st) ->
  storedSize (store st) <= sizeTracker st ->
  storedSize (store (fst (performCleanup config now st)))
  <= sizeTracker (fst (performCleanup config now st)).
Proof.
  intros Hwf Hle. unfold performCleanup. rewrite (expired_removed now _ Hwf).
  cbn [sizeTracker withStore].
  assert (Hlive : storedSize (live now (store st)) <= sizeTracker st).
  { pose proof (storedSize_filter (fun e => negb (ttlElapsed now (snd e))) (store st)).
    unfold live. lia. }
  destruct (overLimit config (sizeTracker st)); [|exact Hlive].
  apply evictOldest_bound.
  - eapply Permutation_NoDup;
      [apply Permutation_map; symmetry; apply sortByCreatedAt_perm|].
    apply (wf_filter _ _ Hwf).
  - intros e He. simpl. eapply Permutation_in; [apply sortByCreatedAt_perm|exact He].
  - exact Hlive.
Qed.

Lemma delete_bound clock st key :
  storedSize (store st) <= sizeTracker st ->
  storedSize (store (fst (delete config clock st key)))
  <= sizeTracker (fst (delete config clock st key)).
Proof.
  intros Hle. destruct (JsMap.get key (store st)) as [obj|] eqn:Hget.
  - destruct (serializedLength (StoredObject.value obj)) as [n|] eqn:Hn.
    + destruct (delete_present config clock st key obj n Hget Hn) as [_ [Hview _]].
      apply localView_eq_inv in Hview. destruct Hview as [Hs Hz]. rewrite Hs, Hz.
      pose proof (storedSize_delete key (key, obj) (store st)
                    (JsMapFacts.get_in _ _ _ Hget) eq_refl) as Hd.
      unfold sizeOfEntry in Hd. simpl in Hd. rewrite Hn in Hd. lia.
    + unfold delete. now rewrite Hget, Hn.
  - now rewrite delete_absent.
Qed.

End CounterBound.

(** Extra X2.  With encryption disabled the counter never under-reports:
    from a state with unique keys whose counter is at least the serialized
    size of what the store holds, [performCleanup], [set], [delete] and
    [get] all lead to a state whose counter is at least the serialized size
    of what the store then holds.  (The counter may over-report.) *)
Theorem sizeTracker_covers_stored_size
    (node : Runtime) (config : StorageConfig) (st : Storage) :
  enableEncryption config = false ->
  JsMap.wf (store st) ->
  storedSize (store st) <= sizeTracker st ->
  (forall now,
     storedSize (store (fst (performCleanup config now st)))
     <= sizeTracker (fst (performCleanup config now st))) /\
  (forall env key v options,
     storedSize (store (fst (set node config env st key v options)))
     <= sizeTracker (fst (set node config env st key v options))) /\
  (forall clock key,
     storedSize (store (fst (delete config clock st key)))
     <= sizeTracker (fst (delete config clock st key))) /\
  (forall now clock key,
     storedSize (store (fst (get node config now clock st key)))
     <= sizeTracker (fst (get node config now clock st key))).
Proof.
  intros Henc Hwf Hle. repeat split.
  - intros now. now apply performCleanup_bound.
  - intros env key v options.
    destruct (serializedLength v) as [n|] eqn:Hn; [|unfold set; now rewrite Hn].
    assert (H1 : storedSize (store (stateAtInsert config env st v))
                 <= sizeTracker (stateAtInsert config env st v)).
    { destruct (stateAtInsert_cases config env st v) as [-> | ->];
        [exact Hle|now apply performCleanup_bound]. }
    destruct (set_outcome node config env st key v options n Hn)
      as [[_ [Hview _]]|[_ Hst1]]; [|now rewrite Hst1].
    apply localView_eq_inv in Hview. destruct Hview as [Hs Hz]. rewrite Hs, Hz.
    match goal with |- storedSize (JsMap.set key ?o ?m) <= _ =>
      pose proof (storedSize_set key o m) as Hset end.
    unfold sizeOfEntry in Hset. simpl in Hset. rewrite Henc, Hn in Hset. lia.
  - intros clock key. now apply delete_bound.
  - intros now clock key. unfold get.
    destruct (JsMap.get key (store st)) as [obj|]; [|exact Hle].
    destruct (ttlElapsed now obj); [|exact Hle].
    now apply delete_bound.
Qed.

Lemma sizeTracker_covers_stored_size_witness :
  let st := Demo.write Demo.plain 200 "id2" "k" (JStr "b") None
              (Demo.write Demo.plain 100 "id1" "k" (JStr "a") None (newStorage [])) in
  (storedSize (store st), sizeTracker st) = (3, 6) /\
  storedSize (store (fst (delete Demo.plain (fun _ => 300) st "k")))
  <= sizeTracker (fst (delete Demo.plain (fun _ => 300) st "k")).
Proof.
  intros st. split; [reflexivity|].
  assert (Hwf : JsMap.wf (store st)) by literal_wf.
  assert (Hle : storedSize (store st) <= sizeTracker st) by (simpl; lia).
  apply (sizeTracker_covers_stored_size Demo.runtime Demo.plain st eq_refl Hwf Hle).
Defined.

(** ** [delete] and the keys it leaves alone *)

(** Extra X3.  [delete] of a key that is not in the store resolves to
    [false] and changes nothing.  [delete] of a key that is there (in a
    store of serializable values) resolves to [true], removes that key and
    no other, and takes the serialized size of the stored value off the
    counter, stopping at zero.  In both cases the key is gone afterwards, so
    a second [delete] of it resolves to [false] and changes nothing. *)
Theorem delete_removes_exactly_the_key
    (config : StorageConfig) (clock clock' : nat -> Z) (st : Storage) (key : string) :
  valuesDefined (store st) ->
  let r := delete config clock st key in
  match JsMap.get key (store st) with
  | None => r = (st, Some false)
  | Some obj =>
      snd r = Some true /\
      (forall k, k <> key -> JsMap.get k (store (fst r)) = JsMap.get k (store st)) /\
      exists n,
        serializedLength (StoredObject.value obj) = Some n /\
        sizeTracker (fst r) = Z.max 0 (sizeTracker st - n)
  end /\
  JsMap.get key (store (fst r)) = None /\
  delete config clock' (fst r) key = (fst r, Some false).
Proof.
  intros Hdef r.
  assert (Hgone : JsMap.get key (store (fst r)) = None
                  /\ match JsMap.get key (store st) with
                     | None => r = (st, Some false)
                     | Some obj =>
                         snd r = Some true /\
                         (forall k, k <> key ->
                                    JsMap.get k (store (fst r)) = JsMap.get k (store st)) /\
                         exists n,
                           serializedLength (StoredObject.value obj) = Some n /\
                           sizeTracker (fst r) = Z.max 0 (sizeTracker st - n)
                     end).
  { destruct (JsMap.get key (store st)) as [obj|] eqn:Hget.
    - assert (Hobj : StoredObject.value obj <> JUndefined).
      { unfold valuesDefined in Hdef. rewrite Forall_forall in Hdef.
        apply (Hdef (key, obj)). now apply JsMapFacts.get_in. }
      destruct (serializedLength_defined _ Hobj) as [n [Hn _]].
      destruct (delete_present config clock st key obj n Hget Hn) as [Hres [Hview _]].
      fold r in Hres, Hview.
      apply localView_eq_inv in Hview. destruct Hview as [Hs Hz].
      split; [rewrite Hs; apply JsMapFacts.get_delete_same|].
      split; [exact Hres|]. split.
      + intros k Hk. rewrite Hs. apply JsMapFacts.get_delete_other. congruence.
      + exists n. now split.
    - unfold r. rewrite (delete_absent config clock st key Hget). now split. }
  destruct Hgone as [Hgone Hcase].
  split; [exact Hcase|]. split; [exact Hgone|].
  now apply delete_absent.
Qed.

Lemma delete_removes_exactly_the_key_witness :
  let st := Demo.threeWrites None in
  let r := delete Demo.tiny (fun _ => 400) st "j" in
  snd r = Some true /\
  JsMap.keys (store (fst r)) = ["k"; "m"] /\
  sizeTracker (fst r) = 6 /\
  delete Demo.tiny (fun _ => 500) (fst r) "j" = (fst r, Some false).
Proof.
  intros st r.
  assert (Hdef : valuesDefined (store st)) by literal_defined.
  pose proof (delete_removes_exactly_the_key Demo.tiny (fun _ => 400) (fun _ => 500)
                st "j" Hdef) as H.
  simpl in H. destruct H as [[Hres _] [_ Hagain]].
  split; [exact Hres|]. split; [reflexivity|]. split; [reflexivity|exact Hagain].
Defined.

(** ** [set] and the keys it leaves alone *)

Lemma keys_set {V : Type} (m : list (string * V)) k v :
  JsMap.keys (JsMap.set k v m)
  = match JsMap.get k m with
    | Some _ => JsMap.keys m
    | None => JsMap.keys m ++ [k]
    end.
Proof.
  unfold JsMap.keys. induction m as [|[k' v'] m IH]; simpl; [easy|].
  destruct (String.eqb k' k) eqn:E; simpl.
  - apply String.eqb_eq in E. now subst.
  - rewrite IH. now destruct (JsMap.get k m).
Qed.

(** Extra X4.  A [set] whose projected size is within the limit runs no
    cleanup: it resolves to [true], leaves the object of every other key as
    it was, keeps the iteration order of the Map (a key that was there keeps
    its place, a new key goes last) and raises the counter by the serialized
    size of the value. *)
Theorem set_within_limit_leaves_other_keys
    (node : Runtime) (config : StorageConfig) (env : Observed) (st : Storage)
    (key : string) (v : jsval) (options : option Options.t) (n : Z) :
  serializedLength v = Some n ->
  overLimit config (sizeTracker st + n) = false ->
  let st' := fst (set node config env st key v options) in
  snd (set node config env st key v options) = true /\
  (forall k, k <> key -> JsMap.get k (store st') = JsMap.get k (store st)) /\
  JsMap.keys (store st')
  = match JsMap.get key (store st) with
    | Some _ => JsMap.keys (store st)
    | None => JsMap.keys (store st) ++ [key]
    end /\
  sizeTracker st' = sizeTracker st + n.
Proof.
  intros Hn Hfit st'.
  assert (H1 : stateAtInsert config env st v = st).
  { unfold stateAtInsert. now rewrite Hn, Hfit. }
  destruct (set_outcome node config env st key v options n Hn)
    as [[Hok [Hview _]]|[Hfail _]].
  - fold st' in Hview. rewrite H1 in Hview.
    apply localView_eq_inv in Hview. destruct Hview as [Hs Hz].
    split; [exact Hok|]. split.
    + intros k Hk. rewrite Hs. apply JsMapFacts.get_set_other. congruence.
    + split; [rewrite Hs; apply keys_set|exact Hz].
  - exfalso. unfold set in Hfail. rewrite Hn, Hfit in Hfail. discriminate.
Qed.

Lemma set_within_limit_leaves_other_keys_witness :
  let st := Demo.twoWrites None in
  let st' := fst (set Demo.runtime Demo.tiny (Demo.at_ 250 "id9") st "k"
                    (JNum 7) None) in
  JsMap.keys (store st) = ["k"; "j"] /\
  JsMap.keys (store st') = ["k"; "j"] /\
  JsMap.get "j" (store st') = JsMap.get "j" (store st) /\
  sizeTracker st' = 7.
Proof.
  intros st st'. split; [reflexivity|].
  destruct (set_within_limit_leaves_other_keys Demo.runtime Demo.tiny
              (Demo.at_ 250 "id9") st "k" (JNum 7) None 1 eq_refl eq_refl)
    as [_ [Hother [Hkeys Hsize]]].
  split; [exact Hkeys|]. split; [|exact Hsize].
  apply Hother. discriminate.
Defined.

(** ** What the cleanup can and cannot do *)

Section CleanupShape.

Variable config : StorageConfig.

Lemma evictOldest_removes entries :
  forall st,
    0 <= sizeTracker st ->
    exists ks,
      store (fst (evictOldest config entries st))
      = fold_left (fun acc k => JsMap.delete k acc) ks (store st) /\
      sizeTracker (fst (evictOldest config entries st)) <= sizeTracker st.
Proof.
  induction entries as [|[k obj] rest IH]; intros st Hst; simpl.
  - exists []. simpl. split; [reflexivity|lia].
  - destruct (overTarget config (sizeTracker st)); [|exists []; simpl; split; [easy|lia]].
    destruct (serializedLength (StoredObject.value obj)) as [n|] eqn:Hn;
      [|exists []; simpl; split; [easy|lia]].
    pose proof (serializedLength_nonneg _ _ Hn) as Hpos.
    destruct (IH (withStore st (JsMap.delete k (store st))
                    (Z.max 0 (sizeTracker st - n)))) as [ks [Hs Hz]].
    { simpl. lia. }
    exists (k :: ks). simpl in *. split; [exact Hs|lia].
Qed.

Lemma evictOldest_idle entries st :
  overTarget config (sizeTracker st) = false ->
  evictOldest config entries st = (st, true).
Proof.
  intros Hidle. destruct entries as [|[k obj] rest]; simpl; [easy|].
  now rewrite Hidle.
Qed.

Lemma filter_all {A : Type} (p : A -> bool) (l : list A) :
  (forall x, In x l -> p x = true) -> filter p l = l.
Proof.
  induction l as [|x l IH]; simpl; intros Hall; [easy|].
  rewrite (Hall x (or_introl eq_refl)). f_equal. apply IH. auto.
Qed.

Lemma delete_all_keys (m : list (string * StoredObject.t)) ks :
  (forall e, In e m -> In (fst e) ks) ->
  fold_left (fun acc k => JsMap.delete k acc) ks m = [].
Proof.
  intros Hall. rewrite JsMapFacts.delete_all.
  induction m as [|e m IH]; simpl; [easy|].
  assert (Hex : existsb (String.eqb (fst e)) ks = true).
  { apply existsb_exists. exists (fst e). split; [|apply String.eqb_refl].
    apply Hall. now left. }
  rewrite Hex. simpl. apply IH. intros x Hx. apply Hall. now right.
Qed.

(** The state a completed cleanup leaves: a part of the live entries, and a
    counter that, if it is still above the limit, is at or below the target
    unless nothing is left to evict. *)
Lemma performCleanup_shape now st :
  JsMap.wf (store st) ->
  valuesDefined (store st) ->
  exists kept size,
    performCleanup config now st = (withStore st kept size, true) /\
    (exists f, kept = filter f (live now (store st))) /\
    (overLimit config size = true -> overTarget config size = false \/ kept = []).
Proof.
  intros Hwf Hdef. unfold performCleanup. rewrite (expired_removed now _ Hwf).
  change (sizeTracker (withStore st (live now (store st)) (sizeTracker st)))
    with (sizeTracker st).
  change (store (withStore st (live now (store st)) (sizeTracker st)))
    with (live now (store st)).
  destruct (overLimit config (sizeTracker st)) eqn:Hover.
  - destruct (evictOldest_spec config (sortByCreatedAt (live now (store st))))
      with (st := withStore st (live now (store st)) (sizeTracker st))
      as [removed [rest [Hsplit [Hrun [Hstop _]]]]].
    { eapply valuesDefined_incl; [|exact Hdef].
      intros e He. eapply Permutation_in in He; [|apply sortByCreatedAt_perm].
      apply filter_In in He. tauto. }
    rewrite Hrun. cbn [store sizeTracker withStore].
    eexists. eexists. split; [reflexivity|]. split.
    + rewrite JsMapFacts.delete_all. eexists. reflexivity.
    + intros _. destruct Hstop as [Hnone|Hidle]; [right|now left].
      subst rest. rewrite app_nil_r in Hsplit. subst removed.
      apply delete_all_keys. intros e He. apply in_map.
      eapply Permutation_in; [symmetry; apply sortByCreatedAt_perm|exact He].
  - exists (live now (store st)), (sizeTracker st).
    split; [reflexivity|]. split.
    + exists (fun _ => true). symmetry. now apply filter_all.
    + intros Habs. congruence.
Qed.

End CleanupShape.

(** Extra X5.  [performCleanup] only removes: the store it leaves is the
    store it found without the entries of some keys, the others in their
    order; the counter, if it was at or above zero, does not rise; the
    replicas are untouched. *)
Theorem performCleanup_only_removes
    (config : StorageConfig) (now : Z) (st : Storage) :
  0 <= sizeTracker st ->
  let st' := fst (performCleanup config now st) in
  (exists gone,
     store st'
     = filter (fun e => negb (existsb (String.eqb (fst e)) gone)) (store st)) /\
  sizeTracker st' <= sizeTracker st /\
  replicationNodes st' = replicationNodes st.
Proof.
  intros Hst st'. split; [|split; [|apply performCleanup_nodes]].
  - unfold st', performCleanup. cbn [sizeTracker withStore].
    set (expired := map fst (filter (fun e => ttlElapsed now (snd e)) (store st))).
    destruct (overLimit config (sizeTracker st)).
    + match goal with |- context [evictOldest config ?es ?s] =>
        destruct (evictOldest_removes config es s Hst) as [ks [Hs _]] end.
      exists (expired ++ ks). rewrite Hs. cbn [store withStore].
      rewrite <- fold_left_app. apply JsMapFacts.delete_all.
    + exists expired. cbn [fst store withStore]. apply JsMapFacts.delete_all.
  - unfold st', performCleanup. cbn [sizeTracker withStore].
    destruct (overLimit config (sizeTracker st)); [|cbn [fst sizeTracker withStore]; lia].
    match goal with |- context [evictOldest config ?es ?s] =>
      destruct (evictOldest_removes config es s Hst) as [ks [_ Hz]] end.
    exact Hz.
Qed.

Lemma performCleanup_only_removes_witness :
  let st := Demo.threeWrites (Demo.ttlOnly 1000) in
  let st' := fst (performCleanup Demo.tiny 5000 st) in
  (JsMap.keys (store st), sizeTracker st) = (["k"; "j"; "m"], 9) /\
  (JsMap.keys (store st'), sizeTracker st') = (["m"], 6) /\
  sizeTracker st' <= sizeTracker st.
Proof.
  intros st st'. split; [reflexivity|]. split; [reflexivity|].
  assert (H0 : 0 <= sizeTracker st) by (simpl; lia).
  apply (performCleanup_only_removes Demo.tiny 5000 st H0).
Defined.

(** Extra X6.  [performCleanup] is idempotent: on a Map of serializable
    values, a second run at the same instant, right after the first, runs to
    its end and changes nothing. *)
Theorem performCleanup_twice
    (config : StorageConfig) (now : Z) (st : Storage) :
  JsMap.wf (store st) ->
  valuesDefined (store st) ->
  performCleanup config now (fst (performCleanup config now st))
  = (fst (performCleanup config now st), true).
Proof.
  intros Hwf Hdef.
  destruct (performCleanup_shape config now st Hwf Hdef)
    as [kept [size [Hrun [[f Hkept] Hstop]]]].
  rewrite Hrun. cbn [fst].
  assert (Hwf' : JsMap.wf kept).
  { rewrite Hkept. apply wf_filter. now apply wf_filter. }
  assert (Hlive : live now kept = kept).
  { apply filter_all. intros e He. rewrite Hkept in He.
    apply filter_In in He as [He _]. apply filter_In in He as [_ He]. exact He. }
  unfold performCleanup. cbn [store sizeTracker withStore].
  rewrite (expired_removed now kept Hwf'), Hlive.
  destruct (overLimit config size) eqn:Hover; [|reflexivity].
  destruct (Hstop eq_refl) as [Hidle| ->].
  - now rewrite evictOldest_idle.
  - reflexivity.
Qed.

Lemma performCleanup_twice_witness :
  let st := Demo.threeWrites (Demo.ttlOnly 1000) in
  performCleanup Demo.tiny 5000 (fst (performCleanup Demo.tiny 5000 st))
  = (fst (performCleanup Demo.tiny 5000 st), true).
Proof.
  intros st.
  assert (Hwf : JsMap.wf (store st)) by literal_wf.
  assert (Hdef : valuesDefined (store st)) by literal_defined.
  apply (performCleanup_twice Demo.tiny 5000 st Hwf Hdef).
Defined.

(** ** The replica descriptors under the data operations *)

Section ReplicaFacts.

Variable node : Runtime.
Variable config : StorageConfig.

Lemma identity_touchSet clock i nodes :
  map identity (touchSet clock i nodes) = map identity nodes.
Proof.
  revert i. induction nodes as [|n rest IH]; intros i; simpl; [easy|].
  rewrite IH. f_equal. unfold identity.
  destruct (ReplicationNode.status n) eqn:E; simpl; now rewrite ?E.
Qed.

Lemma identity_touchDelete clock i nodes :
  map identity (touchDelete clock i nodes) = map identity nodes.
Proof.
  revert i. induction nodes as [|n rest IH]; intros i; simpl; [easy|].
  rewrite IH. f_equal. unfold identity.
  destruct (ReplicationNode.status n) eqn:E; simpl; now rewrite ?E.
Qed.

Lemma nth_error_touchSet clock k nodes j n :
  nth_error nodes j = Some n ->
  nth_error (touchSet clock k nodes) j
  = Some (match ReplicationNode.status n with
          | online =>
              ReplicationNode.mk (ReplicationNode.id n) (ReplicationNode.address n)
                (ReplicationNode.port n) online (clock (k + j)%nat)
                (ReplicationNode.storageUsed n + 1)
          | _ => n
          end).
Proof.
  revert k j. induction nodes as [|m rest IH]; intros k j; [now destruct j|].
  destruct j as [|j]; simpl.
  - intros [= ->]. now rewrite Nat.add_0_r.
  - intros Hj. rewrite (IH (S k) j Hj). now rewrite Nat.add_succ_comm.
Qed.

Lemma nth_error_touchDelete clock k nodes j n :
  nth_error nodes j = Some n ->
  nth_error (touchDelete clock k nodes) j
  = Some (match ReplicationNode.status n with
          | online =>
              ReplicationNode.mk (ReplicationNode.id n) (ReplicationNode.address n)
                (ReplicationNode.port n) online (clock (k + j)%nat)
                (ReplicationNode.storageUsed n)
          | _ => n
          end).
Proof.
  revert k j. induction nodes as [|m rest IH]; intros k j; [now destruct j|].
  destruct j as [|j]; simpl.
  - intros [= ->]. now rewrite Nat.add_0_r.
  - intros Hj. rewrite (IH (S k) j Hj). now rewrite Nat.add_succ_comm.
Qed.

Lemma stateAtInsert_nodes env st v :
  replicationNodes (stateAtInsert config env st v) = replicationNodes st.
Proof.
  destruct (stateAtInsert_cases config env st v) as [-> | ->];
    [reflexivity|apply performCleanup_nodes].
Qed.

(** The replicas after [set]: those of [replicateSet] when the call
    resolves to [true] with replication enabled, the ones before otherwise. *)
Lemma set_nodes env st key v options :
  replicationNodes (fst (set node config env st key v options))
  = if snd (set node config env st key v options) && enableReplication config
    then touchSet (replicaNow env) 0 (replicationNodes st)
    else replicationNodes st.
Proof.
  destruct (serializedLength v) as [n|] eqn:Hn.
  - destruct (set_outcome node config env st key v options n Hn)
      as [[Hok [_ Hnodes]]|[Hfail Hst1]].
    + rewrite Hok, Hnodes, stateAtInsert_nodes. reflexivity.
    + rewrite Hfail, Hst1. apply stateAtInsert_nodes.
  - unfold set. now rewrite Hn.
Qed.

Lemma delete_nodes clock st key :
  replicationNodes (fst (delete config clock st key))
  = match snd (delete config clock st key) with
    | Some true =>
        if enableReplication config
        then touchDelete clock 0 (replicationNodes st)
        else replicationNodes st
    | _ => replicationNodes st
    end.
Proof.
  destruct (JsMap.get key (store st)) as [obj|] eqn:Hget.
  - destruct (serializedLength (StoredObject.value obj)) as [n|] eqn:Hn.
    + destruct (delete_present config clock st key obj n Hget Hn) as [Hres [_ Hnodes]].
      now rewrite Hres, Hnodes.
    + unfold delete. now rewrite Hget, Hn.
  - now rewrite delete_absent.
Qed.

Lemma delete_identity clock st key :
  map identity (replicationNodes (fst (delete config clock st key)))
  = map identity (replicationNodes st).
Proof.
  rewrite delete_nodes.
  destruct (snd (delete config clock st key)) as [[|]|]; try reflexivity.
  destruct (enableReplication config); [apply identity_touchDelete|reflexivity].
Qed.

End ReplicaFacts.

(** Extra X7.  The data operations never add, drop, reorder, re-address or
    change the status of a replica: after [performCleanup], [set], [delete]
    and [get] the list of replicas has the same ids, addresses, ports and
    statuses, in the same order, whatever the outcome. *)
Theorem data_operations_keep_replica_identities
    (node : Runtime) (config : StorageConfig) (st : Storage) :
  (forall now,
     map identity (replicationNodes (fst (performCleanup config now st)))
     = map identity (replicationNodes st)) /\
  (forall env key v options,
     map identity (replicationNodes (fst (set node config env st key v options)))
     = map identity (replicationNodes st)) /\
  (forall clock key,
     map identity (replicationNodes (fst (delete config clock st key)))
     = map identity (replicationNodes st)) /\
  (forall now clock key,
     map identity (replicationNodes (fst (get node config now clock st key)))
     = map identity (replicationNodes st)).
Proof.
  repeat split.
  - intros now. now rewrite performCleanup_nodes.
  - intros env key v options. rewrite set_nodes.
    destruct (snd _ && enableReplication config);
      [apply identity_touchSet|reflexivity].
  - intros clock key. apply delete_identity.
  - intros now clock key. unfold get.
    destruct (JsMap.get key (store st)) as [obj|]; [|reflexivity].
    destruct (ttlElapsed now obj); [|reflexivity].
    apply delete_identity.
Qed.

(** Extra X8.  What [set] and [delete] do to the replicas.  A [set] that
    resolves to [true] with replication enabled raises [storageUsed] of
    every online replica by one step of 0.1 and stamps its [lastSync]; a
    [delete] that resolves to [true] with replication enabled stamps the
    [lastSync] of every online replica.  Replicas that are offline or
    syncing are left exactly as they were, and so are all replicas when the
    call resolves to [false] or replication is disabled. *)
Theorem set_and_delete_touch_online_replicas_only
    (node : Runtime) (config : StorageConfig) (st : Storage) (i : nat)
    (n : ReplicationNode.t) :
  nth_error (replicationNodes st) i = Some n ->
  (forall env key v options,
     nth_error (replicationNodes (fst (set node config env st key v options))) i
     = Some (if snd (set node config env st key v options) && enableReplication config
             then match ReplicationNode.status n with
                  | online =>
                      ReplicationNode.mk (ReplicationNode.id n)
                        (ReplicationNode.address n) (ReplicationNode.port n) online
                        (replicaNow env i) (ReplicationNode.storageUsed n + 1)
                  | _ => n
                  end
             else n)) /\
  (forall clock key,
     nth_error (replicationNodes (fst (delete config clock st key))) i
     = Some (match snd (delete config clock st key) with
             | Some true =>
                 if enableReplication config
                 then match ReplicationNode.status n with
                      | online =>
                          ReplicationNode.mk (ReplicationNode.id n)
                            (ReplicationNode.address n) (ReplicationNode.port n) online
                            (clock i) (ReplicationNode.storageUsed n)
                      | _ => n
                      end
                 else n
             | _ => n
             end)).
Proof.
  intros Hn. split.
  - intros env key v options. rewrite set_nodes.
    destruct (snd _ && enableReplication config); [|exact Hn].
    now rewrite (nth_error_touchSet _ 0 _ i n Hn).
  - intros clock key. rewrite delete_nodes.
    destruct (snd (delete config clock st key)) as [[|]|]; try exact Hn.
    destruct (enableReplication config); [|exact Hn].
    now rewrite (nth_error_touchDelete _ 0 _ i n Hn).
Qed.

Lemma set_and_delete_touch_online_replicas_only_witness :
  let st := newStorage [Demo.replica "r0" online; Demo.replica "r1" offline] in
  let st' := fst (set Demo.runtime defaultConfig (Demo.at_ 100 "id1") st "k"
                    (JNum 7) None) in
  nth_error (replicationNodes st') 0
  = Some (ReplicationNode.mk "r0" "192.168.1.100" 3000 online 100 1) /\
  nth_error (replicationNodes st') 1 = Some (Demo.replica "r1" offline).
Proof.
  intros st st'. split.
  - apply (set_and_delete_touch_online_replicas_only Demo.runtime defaultConfig st 0
             (Demo.replica "r0" online) eq_refl).
  - apply (set_and_delete_touch_online_replicas_only Demo.runtime defaultConfig st 1
             (Demo.replica "r1" offline) eq_refl).
Defined.

(** ** Construction *)

Lemma initializeReplication_length config clock :
  List.length (initializeReplication config clock)
  = Z.to_nat (replicationFactor config - 1).
Proof. unfold initializeReplication. now rewrite length_map, length_seq. Qed.

(** Extra X9.  The state the constructor leaves: an empty Map and a counter
    of 0; with replication enabled, [replicationFactor - 1] replicas (none
    for a factor of 1 or less), so that the count both statistics report,
    which includes the instance itself, is the factor, or 1 if the factor is
    below 1 or replication is disabled.  Every replica starts online, never
    synced and with no storage used, and the ports are pairwise distinct. *)
Theorem construct_registers_factor_minus_one_replicas
    (config : StorageConfig) (clock : nat -> Z) :
  let st := construct config clock in
  localView st = ([], 0) /\
  Z.of_nat (ReplicationStats.totalReplicas (getReplicationStats st))
  = (if enableReplication config then Z.max 1 (replicationFactor config) else 1) /\
  StorageStats.replicationNodes (getStorageStats config st)
  = ReplicationStats.totalReplicas (getReplicationStats st) /\
  Forall (fun n => ReplicationNode.status n = online /\
                   ReplicationNode.lastSync n = 0 /\
                   ReplicationNode.storageUsed n = 0) (replicationNodes st) /\
  NoDup (map ReplicationNode.port (replicationNodes st)).
Proof.
  intros st. split; [reflexivity|]. split; [|split; [reflexivity|split]].
  - unfold st, construct, getReplicationStats. cbn [ReplicationStats.totalReplicas].
    destruct (enableReplication config); cbn [replicationNodes newStorage].
    + rewrite initializeReplication_length. lia.
    + simpl. lia.
  - unfold st, construct. destruct (enableReplication config);
      cbn [replicationNodes newStorage]; [|constructor].
    unfold initializeReplication. apply Forall_forall. intros n Hn.
    apply in_map_iff in Hn as [i [<- _]]. now repeat split.
  - unfold st, construct. destruct (enableReplication config);
      cbn [replicationNodes newStorage]; [|constructor].
    unfold initializeReplication. rewrite map_map. cbn [ReplicationNode.port replicaNode].
    apply NoDup_map_NoDup_ForallPairs; [|apply seq_NoDup].
    intros a b _ _ Heq. lia.
Qed.

(** ** Synchronization *)

Lemma nth_error_syncFrom clock k nodes j n :
  nth_error nodes j = Some n ->
  nth_error (fst (syncFrom clock k nodes)) j
  = Some (match ReplicationNode.status n with
          | online =>
              ReplicationNode.mk (ReplicationNode.id n) (ReplicationNode.address n)
                (ReplicationNode.port n) syncing (clock (k + j)%nat)
                (ReplicationNode.storageUsed n)
          | _ => n
          end).
Proof.
  revert k j. induction nodes as [|m rest IH]; intros k j; [now destruct j|].
  simpl. destruct (syncFrom clock (S k) rest) as [rest' timers] eqn:E.
  destruct j as [|j].
  - intros [= ->]. rewrite Nat.add_0_r. now destruct (ReplicationNode.status n).
  - intros Hj. specialize (IH (S k) j Hj). rewrite E in IH. cbn [fst] in IH.
    replace (k + S j)%nat with (S k + j)%nat by lia.
    now destruct (ReplicationNode.status m).
Qed.

Lemma in_syncFrom_timers clock k nodes i :
  In i (snd (syncFrom clock k nodes)) <->
  exists j n, i = (k + j)%nat /\ nth_error nodes j = Some n /\
              ReplicationNode.status n = online.
Proof.
  revert k. induction nodes as [|m rest IH]; intros k.
  - simpl. split; [contradiction|]. intros [j [n [_ [Hj _]]]]. now destruct j.
  - simpl. specialize (IH (S k)).
    destruct (syncFrom clock (S k) rest) as [rest' timers]. simpl in IH.
    assert (Hrest : In i timers <->
                    exists j n, i = (k + S j)%nat /\ nth_error rest j = Some n /\
                                ReplicationNode.status n = online).
    { rewrite IH. split; intros [j [n [Hi H]]]; exists j, n; split; auto; lia. }
    destruct (ReplicationNode.status m) eqn:Em; simpl.
    + rewrite Hrest. split.
      * intros [<-|[j [n [Hi [Hj Hn]]]]].
        -- exists 0%nat, m. rewrite Nat.add_0_r. now repeat split.
        -- exists (S j), n. now repeat split.
      * intros [[|j] [n [Hi [Hj Hn]]]].
        -- left. lia.
        -- right. exists j, n. now repeat split.
    + rewrite Hrest. split.
      * intros [j [n [Hi [Hj Hn]]]]. exists (S j), n. now repeat split.
      * intros [[|j] [n [Hi [Hj Hn]]]].
        -- simpl in Hj. injection Hj as ->. congruence.
        -- exists j, n. now repeat split.
    + rewrite Hrest. split.
      * intros [j [n [Hi [Hj Hn]]]]. exists (S j), n. now repeat split.
      * intros [[|j] [n [Hi [Hj Hn]]]].
        -- simpl in Hj. injection Hj as ->. congruence.
        -- exists j, n. now repeat split.
Qed.

Lemma nth_error_setOnline i nodes j :
  nth_error (setOnline i nodes) j
  = option_map (fun n => if Nat.eqb j i then brought_online n else n)
      (nth_error nodes j).
Proof.
  revert i j. induction nodes as [|m rest IH]; intros i j.
  - now destruct i, j.
  - destruct i as [|i], j as [|j]; simpl; try reflexivity.
    + clear IH. destruct (nth_error rest j); reflexivity.
    + apply IH.
Qed.

Lemma setOnline_out i nodes :
  nth_error nodes i = None -> setOnline i nodes = nodes.
Proof.
  revert i. induction nodes as [|m rest IH]; intros i; [now destruct i|].
  destruct i as [|i]; simpl; [discriminate|].
  intros H. now rewrite IH.
Qed.

Lemma syncTimer_nodes i st :
  replicationNodes (syncTimer i st) = setOnline i (replicationNodes st).
Proof.
  unfold syncTimer. destruct (nth_error (replicationNodes st) i) as [n|] eqn:E.
  - assert (Hex : existsb (fun m => String.eqb (ReplicationNode.id m)
                                      (ReplicationNode.id n))
                    (replicationNodes st) = true).
    { apply existsb_exists. exists n. split; [|apply String.eqb_refl].
      eapply nth_error_In; eauto. }
    now rewrite Hex.
  - now rewrite setOnline_out.
Qed.

Lemma syncTimer_local i st : localView (syncTimer i st) = localView st.
Proof.
  unfold syncTimer. destruct (nth_error _ _); [|reflexivity].
  now destruct (existsb _ _).
Qed.

Lemma fireTimers_local timers st : localView (fireTimers timers st) = localView st.
Proof.
  unfold fireTimers. revert st. induction timers as [|i rest IH]; intros st; simpl;
    [reflexivity|].
  now rewrite IH, syncTimer_local.
Qed.

Lemma nth_error_fireTimers timers st j :
  nth_error (replicationNodes (fireTimers timers st)) j
  = option_map (fun n => if existsb (Nat.eqb j) timers then brought_online n else n)
      (nth_error (replicationNodes st) j).
Proof.
  unfold fireTimers. revert st. induction timers as [|i rest IH]; intros st; simpl.
  - now destruct (nth_error _ _).
  - rewrite IH, syncTimer_nodes, nth_error_setOnline.
    destruct (nth_error (replicationNodes st) j) as [n|]; [|reflexivity].
    simpl. f_equal.
    destruct (Nat.eqb j i), (existsb (Nat.eqb j) rest); reflexivity.
Qed.

(** Extra X10.  [forceSync] and the timers it arms.  Once the timers armed
    by a [forceSync] have fired, in whatever order, the key map and the
    counter are what they were before the call, every replica that was
    online is online again with the clock reading of its round as
    [lastSync], and every replica that was offline or syncing is exactly as
    it was: the call brings no replica back and takes none offline.  (A
    timer that fires between two rounds of the loop touches a replica the
    loop has already left, so taking the timers after the loop loses
    nothing.) *)
Theorem forceSync_then_timers_restores_statuses
    (clock : nat -> Z) (st : Storage) (fired : list nat) :
  (forall i, In i fired <-> In i (snd (forceSync clock st))) ->
  let st' := fireTimers fired (fst (forceSync clock st)) in
  localView st' = localView st /\
  forall i n,
    nth_error (replicationNodes st) i = Some n ->
    nth_error (replicationNodes st') i
    = Some (match ReplicationNode.status n with
            | online =>
                ReplicationNode.mk (ReplicationNode.id n) (ReplicationNode.address n)
                  (ReplicationNode.port n) online (clock i)
                  (ReplicationNode.storageUsed n)
            | _ => n
            end).
Proof.
  intros Hfired st'. unfold st', forceSync.
  pose proof (in_syncFrom_timers clock 0 (replicationNodes st)) as Htimers.
  pose proof (nth_error_syncFrom clock 0 (replicationNodes st)) as Hnodes.
  unfold forceSync in Hfired.
  destruct (syncFrom clock 0 (replicationNodes st)) as [nodes timers].
  cbn [fst snd] in *. split.
  - now rewrite fireTimers_local.
  - intros i n Hn. rewrite nth_error_fireTimers.
    cbn [replicationNodes withNodes]. rewrite (Hnodes i n Hn). cbn [option_map].
    f_equal. destruct (existsb (Nat.eqb i) fired) eqn:Hex.
    + apply existsb_exists in Hex as [i' [Hin Heq]].
      apply Nat.eqb_eq in Heq. subst i'.
      apply Hfired, Htimers in Hin. destruct Hin as [j [m [Hi [Hj Hm]]]].
      simpl in Hi. subst j. rewrite Hn in Hj. injection Hj as <-.
      now rewrite Hm.
    + destruct (ReplicationNode.status n) eqn:Es; try reflexivity.
      exfalso. apply not_true_iff_false in Hex. apply Hex.
      apply existsb_exists. exists i. split; [|apply Nat.eqb_refl].
      apply Hfired, Htimers. exists i, n. now repeat split.
Qed.

Lemma forceSync_then_timers_restores_statuses_witness :
  let st := newStorage [Demo.replica "r0" online; Demo.replica "r1" offline;
                        Demo.replica "r2" online] in
  let clock := fun i => 500 + Z.of_nat i in
  snd (forceSync clock st) = [0%nat; 2%nat] /\
  map ReplicationNode.status (replicationNodes (fst (forceSync clock st)))
  = [syncing; offline; syncing] /\
  nth_error (replicationNodes (fireTimers [2%nat; 0%nat] (fst (forceSync clock st)))) 2
  = Some (ReplicationNode.mk "r2" "192.168.1.100" 3000 online 502 0).
Proof.
  intros st clock. split; [reflexivity|]. split; [reflexivity|].
  assert (Hfired : forall i, In i [2%nat; 0%nat] <-> In i (snd (forceSync clock st))).
  { intros i. simpl. tauto. }
  destruct (forceSync_then_timers_restores_statuses clock st [2%nat; 0%nat] Hfired)
    as [_ Hnodes].
  apply (Hnodes 2%nat (Demo.replica "r2" online) eq_refl).
Defined.

(** ** Statistics *)

From Stdlib Require Import Lqa.

Lemma kilobytes_scale (k : Q) : (k / 1024 * 1024 == k)%Q.
Proof. field. Qed.

Lemma overLimit_spec config (x : Z) :
  overLimit config x = true <-> (maxStorageSize config < kilobytes x / 1024)%Q.
Proof.
  unfold overLimit. rewrite negb_true_iff, <- not_true_iff_false, Qle_bool_iff.
  pose proof (kilobytes_scale (kilobytes x)) as Hk.
  set (mb := (kilobytes x / 1024)%Q) in *.
  split; intros H.
  - apply Qnot_le_lt in H. lra.
  - apply Qlt_not_le. lra.
Qed.

(** Extra X11.  The statistics agree with the limit test of [set] and
    [performCleanup]: for a positive [maxStorageSize], [utilizationPercent]
    is above 100 exactly when the counter is over the limit, and that is
    exactly when [estimatedFreeSpaceMB] is negative. *)
Theorem stats_agree_with_limit_test (config : StorageConfig) (st : Storage) :
  (0 < maxStorageSize config)%Q ->
  let s := getStorageStats config st in
  (overLimit config (sizeTracker st) = true
   <-> (100 < StorageStats.utilizationPercent s)%Q) /\
  (overLimit config (sizeTracker st) = true
   <-> (StorageStats.estimatedFreeSpaceMB s < 0)%Q).
Proof.
  intros Hmax s. unfold s, getStorageStats.
  cbn [StorageStats.utilizationPercent StorageStats.estimatedFreeSpaceMB].
  rewrite !overLimit_spec.
  set (mb := (kilobytes (sizeTracker st) / 1024)%Q).
  set (m := maxStorageSize config) in *.
  assert (Hy : (m * (mb / m) == mb)%Q) by (apply Qmult_div_r; lra).
  set (y := (mb / m)%Q) in *.
  split; split; intros H; nra.
Qed.

Lemma stats_agree_with_limit_test_witness :
  let st := Demo.threeWrites None in
  overLimit Demo.tiny (sizeTracker st) = true /\
  (100 < StorageStats.utilizationPercent (getStorageStats Demo.tiny st))%Q /\
  (StorageStats.estimatedFreeSpaceMB (getStorageStats Demo.tiny st) < 0)%Q.
Proof.
  intros st.
  assert (Hmax : (0 < maxStorageSize Demo.tiny)%Q) by reflexivity.
  destruct (stats_agree_with_limit_test Demo.tiny st Hmax) as [Hu Hf].
  split; [reflexivity|]. split; [apply Hu|apply Hf]; reflexivity.
Defined.

Lemma length_delete (m : list (string * StoredObject.t)) key obj :
  JsMap.wf m -> JsMap.get key m = Some obj ->
  S (List.length (JsMap.delete key m)) = List.length m.
Proof.
  unfold JsMap.wf, JsMap.keys, JsMap.delete.
  induction m as [|[k o] m IH]; simpl; [discriminate|].
  intros Hnd Hget. inversion Hnd as [|? ? Hnot Hnd']; subst.
  destruct (String.eqb k key) eqn:E; simpl.
  - apply String.eqb_eq in E. subst k. f_equal. f_equal.
    apply filter_all. intros e He. apply negb_true_iff, String.eqb_neq.
    intros Hk. apply Hnot. rewrite <- Hk. now apply in_map.
  - f_equal. now apply IH.
Qed.

(** Extra X12.  Reading an expired key takes it out of the count: on a Map
    of serializable values, a [get] that finds its key expired returns
    [undefined], lowers [totalObjects] of the statistics by exactly one and
    leaves the object of every other key as it was. *)
Theorem get_of_expired_key_uncounts_it
    (node : Runtime) (config : StorageConfig) (now : Z) (clock : nat -> Z)
    (st : Storage) (key : string) (obj : StoredObject.t) :
  JsMap.wf (store st) ->
  valuesDefined (store st) ->
  JsMap.get key (store st) = Some obj ->
  ttlElapsed now obj = true ->
  let st' := fst (get node config now clock st key) in
  snd (get node config now clock st key) = JUndefined /\
  S (StorageStats.totalObjects (getStorageStats config st'))
  = StorageStats.totalObjects (getStorageStats config st) /\
  (forall k, k <> key -> JsMap.get k (store st') = JsMap.get k (store st)).
Proof.
  intros Hwf Hdef Hget Hexp st'.
  assert (Hobj : StoredObject.value obj <> JUndefined).
  { unfold valuesDefined in Hdef. rewrite Forall_forall in Hdef.
    apply (Hdef (key, obj)). now apply JsMapFacts.get_in. }
  destruct (serializedLength_defined _ Hobj) as [n [Hn _]].
  destruct (delete_present config clock st key obj n Hget Hn) as [_ [Hview _]].
  apply localView_eq_inv in Hview. destruct Hview as [Hs _].
  unfold st', get. rewrite Hget, Hexp. cbn [fst snd].
  split; [reflexivity|]. unfold getStorageStats. cbn [StorageStats.totalObjects].
  rewrite Hs. split.
  - now apply (length_delete _ key obj).
  - intros k Hk. apply JsMapFacts.get_delete_other. congruence.
Qed.

Lemma get_of_expired_key_uncounts_it_witness :
  let st := Demo.threeWrites (Demo.ttlOnly 1000) in
  let st' := fst (get Demo.runtime Demo.tiny 5000 (fun _ => 5000) st "k") in
  StorageStats.totalObjects (getStorageStats Demo.tiny st) = 3%nat /\
  snd (get Demo.runtime Demo.tiny 5000 (fun _ => 5000) st "k") = JUndefined /\
  S (StorageStats.totalObjects (getStorageStats Demo.tiny st')) = 3%nat.
Proof.
  intros st st'. split; [reflexivity|].
  assert (Hwf : JsMap.wf (store st)) by literal_wf.
  assert (Hdef : valuesDefined (store st)) by literal_defined.
  destruct (get_of_expired_key_uncounts_it Demo.runtime Demo.tiny 5000 (fun _ => 5000)
              st "k" (StoredObject.mk "id1" "k" (JStr "a") 100 100 1 [] (Some 1000))
              Hwf Hdef eq_refl eq_refl) as [Hu [Hcount _]].
  split; [exact Hu|exact Hcount].
Defined.

(** ** [findByTag] after [set] *)

Lemma filter_set_untagged (p : StoredObject.t -> bool)
    (m : list (string * StoredObject.t)) key obj :
  JsMap.wf m -> p obj = false ->
  filter p (map snd (JsMap.set key obj m)) = filter p (map snd (JsMap.delete key m)).
Proof.
  unfold JsMap.wf, JsMap.keys, JsMap.delete. intros Hwf Hp.
  induction m as [|[k o] m IH]; simpl.
  - now rewrite Hp.
  - inversion Hwf as [|? ? Hnot Hnd]; subst.
    destruct (String.eqb k key) eqn:E; simpl.
    + rewrite Hp. apply String.eqb_eq in E. subst k. f_equal. f_equal.
      symmetry. apply filter_all. intros e He.
      apply negb_true_iff, String.eqb_neq. intros Hk. apply Hnot.
      rewrite <- Hk. now apply in_map.
    + rewrite (IH Hnd). reflexivity.
Qed.

(** Extra X13.  What [set] tags, [findByTag] finds: on a store of
    serializable values, after a [set] of a value that survives
    [JSON.parse(JSON.stringify(v))] with options that carry the tag, the
    list [findByTag] returns for that tag contains the value, with
    encryption disabled or enabled, and whatever the [ttl] given. *)
Theorem findByTag_finds_what_set_tagged
    (node : Runtime) (config : StorageConfig) (env : Observed) (st : Storage)
    (key : string) (v : jsval) (options : option Options.t) (tag : string) :
  storable node v ->
  cipherSound node ->
  ivHex env <> "" ->
  valuesDefined (store st) ->
  In tag (tagsOf options) ->
  In v (findByTag node config (fst (set node config env st key v options)) tag).
Proof.
  intros Hv Hc Hiv Hdef Htag.
  pose proof Hv as [s [Hs _]].
  assert (Hn : serializedLength v = Some (Z.of_nat (String.length s)))
    by (unfold serializedLength; now rewrite Hs).
  destruct (set_runs node config env st key v options _ Hn Hdef) as [_ Hview].
  apply localView_eq_inv in Hview. destruct Hview as [Hstore _].
  set (obj := newObject node config env
                (JsMap.get key (store (stateAtInsert config env st v))) key v options)
    in Hstore.
  unfold findByTag. rewrite Hstore.
  assert (Hback : (if enableEncryption config
                   then decryptData node config (StoredObject.value obj)
                   else StoredObject.value obj) = v).
  { simpl. destruct (enableEncryption config); [|reflexivity].
    now apply decrypt_encrypt. }
  rewrite <- Hback at 1.
  apply (in_map (fun o => if enableEncryption config
                          then decryptData node config (StoredObject.value o)
                          else StoredObject.value o)).
  apply filter_In. split.
  - change obj with (snd (key, obj)). apply in_map.
    apply JsMapFacts.get_in, JsMapFacts.get_set_same.
  - apply existsb_exists. exists tag. split; [exact Htag|apply String.eqb_refl].
Qed.

Lemma findByTag_finds_what_set_tagged_witness :
  In (JNum 7)
     (findByTag Demo.runtime defaultConfig
        (fst (set Demo.runtime defaultConfig (Demo.at_ 100 "id1")
                (newStorage [Demo.replica "r0" online]) "k" (JNum 7)
                (Demo.tagged "t" 1000)))
        "t").
Proof.
  apply (findByTag_finds_what_set_tagged Demo.runtime defaultConfig (Demo.at_ 100 "id1")
           (newStorage [Demo.replica "r0" online]) "k" (JNum 7)
           (Demo.tagged "t" 1000) "t").
  - exists "7". split; reflexivity.
  - intros t. split; [reflexivity|discriminate].
  - discriminate.
  - constructor.
  - simpl. now left.
Defined.

(** Extra X14.  A key that is written without a tag no longer answers to
    it: on a Map of serializable values, after a [set] whose options do not
    carry the tag, [findByTag] returns for that tag exactly what the other
    keys of the store contribute, in their order; whatever the key held
    before under that tag is gone from the answer. *)
Theorem findByTag_forgets_retagged_key
    (node : Runtime) (config : StorageConfig) (env : Observed) (st : Storage)
    (key : string) (v : jsval) (options : option Options.t) (tag : string) (n : Z) :
  JsMap.wf (store st) ->
  valuesDefined (store st) ->
  serializedLength v = Some n ->
  ~ In tag (tagsOf options) ->
  let st1 := stateAtInsert config env st v in
  findByTag node config (fst (set node config env st key v options)) tag
  = findByTag node config
      (withStore st1 (JsMap.delete key (store st1)) (sizeTracker st1)) tag.
Proof.
  intros Hwf Hdef Hn Htag st1.
  destruct (set_runs node config env st key v options n Hn Hdef) as [_ Hview].
  apply localView_eq_inv in Hview. destruct Hview as [Hstore _].
  fold st1 in Hstore.
  assert (Hwf1 : JsMap.wf (store st1)).
  { destruct (stateAtInsert_cases config env st v) as [H|H]; unfold st1; rewrite H;
      [exact Hwf|].
    apply (performCleanup_ok config (cleanupNow env) st). now split. }
  unfold findByTag. rewrite Hstore. cbn [store withStore]. f_equal.
  apply filter_set_untagged; [exact Hwf1|].
  apply not_true_iff_false. intros Hex. apply Htag.
  apply existsb_exists in Hex as [t [Hin Heq]].
  apply String.eqb_eq in Heq. now subst t.
Qed.

Lemma findByTag_forgets_retagged_key_witness :
  let st := Demo.write Demo.plain 100 "id1" "k" (JStr "a") (Demo.tagged "t" 1000)
              (newStorage []) in
  let st' := fst (set Demo.runtime Demo.plain (Demo.at_ 200 "id2") st "k"
                    (JStr "b") (Demo.tagged "u" 1000)) in
  findByTag Demo.runtime Demo.plain st "t" = [JStr "a"] /\
  findByTag Demo.runtime Demo.plain st' "t" = [] /\
  findByTag Demo.runtime Demo.plain st' "u" = [JStr "b"].
Proof.
  intros st st'. split; [reflexivity|]. split; [|reflexivity].
  assert (Hwf : JsMap.wf (store st)) by literal_wf.
  assert (Hdef : valuesDefined (store st)) by literal_defined.
  assert (Htag : ~ In "t" (tagsOf (Demo.tagged "u" 1000))).
  { simpl. intros [H|H]; [discriminate|exact H]. }
  exact (findByTag_forgets_retagged_key Demo.runtime Demo.plain (Demo.at_ 200 "id2")
           st "k" (JStr "b") (Demo.tagged "u" 1000) "t" 3 Hwf Hdef eq_refl Htag).
Defined.

(** ** An expired entry that nobody has read yet *)

(** Extra X15.  Expiry takes effect only when something observes it.  Take
    a key whose [ttl] has run out but which is still in the store, and a
    [set] of that key whose projected size is within the limit.  Called
    directly, the [set] treats the key as present: it continues its version
    (plus 1) and keeps its [createdAt].  Called after a [get] of the key,
    which removes the expired entry, the same [set] starts the key afresh:
    version 1 and the [createdAt] of the call. *)
Theorem expired_key_is_renewed_only_after_a_read
    (node : Runtime) (config : StorageConfig) (env : Observed)
    (now : Z) (clock : nat -> Z) (st : Storage)
    (key : string) (obj : StoredObject.t) (v : jsval) (options : option Options.t)
    (n : Z) :
  valuesDefined (store st) ->
  JsMap.get key (store st) = Some obj ->
  ttlElapsed now obj = true ->
  serializedLength v = Some n ->
  overLimit config (sizeTracker st + n) = false ->
  let direct := fst (set node config env st key v options) in
  let afterRead :=
    fst (set node config env (fst (get node config now clock st key)) key v options) in
  let seen st' :=
    option_map (fun o => (StoredObject.version o, StoredObject.createdAt o))
      (JsMap.get key (store st')) in
  seen direct = Some (StoredObject.version obj + 1, StoredObject.createdAt obj) /\
  seen afterRead = Some (1, createdNow env).
Proof.
  intros Hdef Hget Hexp Hn Hfit direct afterRead seen. split.
  - destruct (set_runs node config env st key v options n Hn Hdef) as [_ Hview].
    apply localView_eq_inv in Hview. destruct Hview as [Hstore _].
    assert (H1 : stateAtInsert config env st v = st).
    { unfold stateAtInsert. now rewrite Hn, Hfit. }
    rewrite H1 in Hstore.
    unfold seen, direct. rewrite Hstore, JsMapFacts.get_set_same, Hget. reflexivity.
  - assert (Hobj : StoredObject.value obj <> JUndefined).
    { unfold valuesDefined in Hdef. rewrite Forall_forall in Hdef.
      apply (Hdef (key, obj)). now apply JsMapFacts.get_in. }
    destruct (serializedLength_defined _ Hobj) as [m [Hm _]].
    destruct (delete_present config clock st key obj m Hget Hm) as [_ [Hview _]].
    apply localView_eq_inv in Hview. destruct Hview as [Hs _].
    set (st2 := fst (get node config now clock st key)).
    assert (Hs2 : store st2 = JsMap.delete key (store st)).
    { unfold st2, get. now rewrite Hget, Hexp. }
    assert (Hdef2 : valuesDefined (store st2)).
    { eapply valuesDefined_incl; [|exact Hdef].
      intros e He. rewrite Hs2 in He. now apply JsMapFacts.in_delete in He. }
    destruct (set_runs node config env st2 key v options n Hn Hdef2) as [_ Hview2].
    apply localView_eq_inv in Hview2. destruct Hview2 as [Hstore2 _].
    assert (Habsent : JsMap.get key (store (stateAtInsert config env st2 v)) = None).
    { destruct (JsMap.get key (store (stateAtInsert config env st2 v))) as [e|] eqn:E;
        [|reflexivity].
      exfalso. apply JsMapFacts.get_in in E.
      assert (Hin : In (key, e) (store st2)).
      { destruct (stateAtInsert_cases config env st2 v) as [H|H]; rewrite H in E;
          [exact E|now apply performCleanup_store_incl in E]. }
      rewrite Hs2 in Hin. apply JsMapFacts.in_delete in Hin. now destruct Hin. }
    unfold seen, afterRead. fold st2.
    rewrite Hstore2, JsMapFacts.get_set_same, Habsent. reflexivity.
Qed.

Lemma expired_key_is_renewed_only_after_a_read_witness :
  let st := Demo.write Demo.plain 100 "id1" "k" (JStr "a") (Demo.ttlOnly 1000)
              (newStorage []) in
  let env := Demo.at_ 5000 "id2" in
  let seen st' :=
    option_map (fun o => (StoredObject.version o, StoredObject.createdAt o))
      (JsMap.get "k" (store st')) in
  snd (get Demo.runtime Demo.plain 5000 (fun _ => 5000) st "k") = JUndefined /\
  seen (fst (set Demo.runtime Demo.plain env st "k" (JStr "b") None)) = Some (2, 100) /\
  seen (fst (set Demo.runtime Demo.plain env
               (fst (get Demo.runtime Demo.plain 5000 (fun _ => 5000) st "k"))
               "k" (JStr "b") None)) = Some (1, 5000).
Proof.
  intros st env seen. split; [reflexivity|].
  assert (Hdef : valuesDefined (store st)) by literal_defined.
  exact (expired_key_is_renewed_only_after_a_read Demo.runtime Demo.plain env 5000
           (fun _ => 5000) st "k"
           (StoredObject.mk "id1" "k" (JStr "a") 100 100 1 [] (Some 1000))
           (JStr "b") None 3 Hdef eq_refl eq_refl eq_refl eq_refl).
Defined.

(** ** Edges of the codec and of the [ttl] *)

(** Extra X17.  On a runtime without the cipher the store holds clear text
    even with encryption enabled: a [set] of a value with a serialization,
    on a store of serializable values, leaves the value itself under the
    key, whatever [enableEncryption] says (the [catch] of [encryptData]
    returns its argument). *)
Theorem set_stores_clear_text_without_cipher
    (node : Runtime) (config : StorageConfig) (env : Observed) (st : Storage)
    (key : string) (v : jsval) (options : option Options.t) (n : Z) :
  cipherAvailable node = false ->
  valuesDefined (store st) ->
  serializedLength v = Some n ->
  snd (set node config env st key v options) = true /\
  option_map StoredObject.value
    (JsMap.get key (store (fst (set node config env st key v options))))
  = Some v.
Proof.
  intros Hnone Hdef Hn.
  destruct (set_runs node config env st key v options n Hn Hdef) as [Hok Hview].
  apply localView_eq_inv in Hview. destruct Hview as [Hstore _].
  split; [exact Hok|].
  rewrite Hstore, JsMapFacts.get_set_same. simpl. f_equal.
  unfold encryptData. rewrite Hnone.
  now destruct (enableEncryption config).
Qed.

Lemma set_stores_clear_text_without_cipher_witness :
  let bare := {| cipherAvailable := false; aes192 := Demo.cipher;
                 unaes192 := Demo.decipher; parse := Demo.parseLiteral |} in
  option_map StoredObject.value
    (JsMap.get "k"
       (store (fst (set bare defaultConfig (Demo.at_ 100 "id1") (newStorage [])
                      "k" (JStr "secret") None))))
  = Some (JStr "secret").
Proof.
  intros bare.
  assert (Hdef : valuesDefined (store (newStorage []))) by constructor.
  apply (set_stores_clear_text_without_cipher bare defaultConfig (Demo.at_ 100 "id1")
           (newStorage []) "k" (JStr "secret") None 8 eq_refl Hdef eq_refl).
Defined.

(** Extra X18.  A negative [ttl] makes the write vanish at the first read:
    after a [set] with a [ttl] below zero, on a store of serializable
    values, a [get] of the key at any instant not before the write returns
    [undefined] and the key is gone from the store. *)
Theorem negative_ttl_expires_at_once
    (node : Runtime) (config : StorageConfig) (env : Observed) (st : Storage)
    (key : string) (v : jsval) (options : option Options.t)
    (t n now : Z) (clock : nat -> Z) :
  valuesDefined (store st) ->
  serializedLength v = Some n ->
  ttlOf options = Some t ->
  t < 0 ->
  updatedNow env <= now ->
  let st' := fst (set node config env st key v options) in
  snd (set node config env st key v options) = true /\
  snd (get node config now clock st' key) = JUndefined /\
  JsMap.get key (store (fst (get node config now clock st' key))) = None.
Proof.
  intros Hdef Hn Httl Hneg Hnow st'.
  destruct (set_runs node config env st key v options n Hn Hdef) as [Hok Hview].
  fold st' in Hview. apply localView_eq_inv in Hview. destruct Hview as [Hstore _].
  set (obj := newObject node config env
                (JsMap.get key (store (stateAtInsert config env st v))) key v options)
    in Hstore.
  assert (Hget : JsMap.get key (store st') = Some obj)
    by (rewrite Hstore; apply JsMapFacts.get_set_same).
  assert (Hexp : ttlElapsed now obj = true).
  { unfold ttlElapsed. simpl. rewrite Httl. apply andb_true_iff. split.
    - apply negb_true_iff, Z.eqb_neq. lia.
    - rewrite Z.gtb_ltb. apply Z.ltb_lt. lia. }
  assert (Hv : v <> JUndefined) by (intros ->; discriminate).
  assert (Hobj : StoredObject.value obj <> JUndefined).
  { simpl. destruct (enableEncryption config); [|exact Hv].
    now apply encryptData_defined. }
  destruct (serializedLength_defined _ Hobj) as [m [Hm _]].
  destruct (delete_present config clock st' key obj m Hget Hm) as [_ [Hview _]].
  apply localView_eq_inv in Hview. destruct Hview as [Hs _].
  split; [exact Hok|]. unfold get. rewrite Hget, Hexp. cbn [fst snd].
  split; [reflexivity|]. rewrite Hs. apply JsMapFacts.get_delete_same.
Qed.

Lemma negative_ttl_expires_at_once_witness :
  let st' := fst (set Demo.runtime Demo.plain (Demo.at_ 100 "id1") (newStorage [])
                    "k" (JStr "a") (Demo.ttlOnly (-1))) in
  JsMap.keys (store st') = ["k"] /\
  snd (get Demo.runtime Demo.plain 100 (fun _ => 100) st' "k") = JUndefined /\
  JsMap.get "k" (store (fst (get Demo.runtime Demo.plain 100 (fun _ => 100) st' "k")))
  = None.
Proof.
  intros st'. split; [reflexivity|].
  assert (Hdef : valuesDefined (store (newStorage []))) by constructor.
  assert (Hneg : -1 < 0) by lia.
  assert (Hnow : updatedNow (Demo.at_ 100 "id1") <= 100) by (simpl; lia).
  destruct (negative_ttl_expires_at_once Demo.runtime Demo.plain (Demo.at_ 100 "id1")
              (newStorage []) "k" (JStr "a") (Demo.ttlOnly (-1)) (-1) 3 100
              (fun _ => 100) Hdef eq_refl eq_refl Hneg Hnow) as [_ [Hu Hgone]].
  split; [exact Hu|exact Hgone].
Defined.
